(** * ptree: matches and sequences of experiments

  A shallow embedding of [ptree/models/matches.py] and
  [ptree/sequence_of_experiments/models.py] (Python 2, Django ORM), with
  the properties of the match lifecycle predicates, the match assignment
  query, the chain construction and the chain traversals. *)

From Stdlib Require Import ZArith Lia.
From stdpp Require Import base decidable option list strings gmap functions pretty.

Set Warnings "-register-all".

(** ** Python values, truthiness and exceptions *)

Module Py.

(** The exceptions the modelled methods can raise. *)
Inductive exn :=
| StopIteration
| NotImplementedError
| KeyError
| IndexError
| AttributeError
| DoesNotExist.

(** The outcome of a call: a value, an exception, or a loop that has not
    finished within the fuel it was given. *)
Inductive outcome (A : Type) :=
| Returns (a : A)
| Raises (e : exn)
| Unfinished.
Arguments Returns {A} a.
Arguments Raises {A} e.
Arguments Unfinished {A}.

#[global] Instance outcome_ret : MRet outcome := λ A a, Returns a.
#[global] Instance outcome_bind : MBind outcome := λ A B f m,
  match m with
  | Returns a => f a
  | Raises e => Raises e
  | Unfinished => Unfinished
  end.

(** The values that the modelled expressions evaluate to. A model
    instance is referred to by its class name and its primary key; a bound
    method by its name and the primary key of the instance it is bound to. *)
Inductive value :=
| VNone
| VBool (b : bool)
| VInt (n : Z)
| VStr (s : string)
| VList (vs : list value)
| VInstance (cls : string) (pk : nat)
| VMethod (name : string) (self : nat).

(** Python's truth value testing: [None], [False], zero, the empty string
    and the empty list are false; model instances (which define neither
    [__nonzero__] nor [__len__]) and bound methods are true. *)
Definition truthy (v : value) : bool :=
  match v with
  | VNone => false
  | VBool b => b
  | VInt n => negb (n =? 0)%Z
  | VStr s => match s with EmptyString => false | String _ _ => true end
  | VList vs => match vs with [] => false | _ :: _ => true end
  | VInstance _ _ => true
  | VMethod _ _ => true
  end.

(** [xs[i]] for a non-negative index: [IndexError] out of range. *)
Definition getitem {A} (xs : list A) (i : nat) : outcome A :=
  match xs !! i with
  | Some x => Returns x
  | None => Raises IndexError
  end.

(** [for x in xs: body], threading the state through the iterations. *)
Fixpoint for_each {A S} (xs : list A) (body : A → S → outcome S) (s : S) : outcome S :=
  match xs with
  | [] => Returns s
  | x :: xs' => s' ← body x s; for_each xs' body s'
  end.

(** [range(n)]; Python's [range] of a negative number is empty, as is
    [seq 0 (a - b)] when the subtraction on [nat] truncates. *)
Definition range (n : nat) : list nat := seq 0 n.

(** A [while True] loop that follows a pointer from object to object and
    appends each object to [lst] until the pointer is null:
    [[
      while True:
          if not cur: break
          lst.append(cur)
          cur = cur.next
    ]]
    One unit of fuel is spent per iteration. *)
Fixpoint walk (next : nat → option nat) (fuel : nat) (lst : list nat)
    (cur : option nat) : outcome (list nat) :=
  match fuel with
  | 0 => Unfinished
  | S fuel' =>
      match cur with
      | None => Returns lst
      | Some x => walk next fuel' (lst ++ [x]) (next x)
      end
  end.

(** Attribute lookup on an instance: the instance's own attributes (the
    fields of the model) first, then the methods of its class, which come
    back bound to the instance. *)
Fixpoint lookup_attribute (attrs : list (string * value)) (attr : string) : option value :=
  match attrs with
  | [] => None
  | (k, v) :: attrs' => if String.eqb k attr then Some v else lookup_attribute attrs' attr
  end.

Definition getattr (fields : list (string * value)) (methods : list string)
    (self : nat) (attr : string) : outcome value :=
  match lookup_attribute fields attr with
  | Some v => Returns v
  | None =>
      if existsb (String.eqb attr) methods
      then Returns (VMethod attr self)
      else Raises AttributeError
  end.

Definition optional_str (s : option string) : value :=
  match s with Some s => VStr s | None => VNone end.

Definition optional_instance (cls : string) (r : option nat) : value :=
  match r with Some pk => VInstance cls pk | None => VNone end.

End Py.
Import Py.

(** ** ptree/models/matches.py *)

Module matches.

(** The treatment of a match. Its class is declared outside the files
    modelled here; the methods below read its [code] and its
    [participants_per_match]. *)
Module Treatment.
Record t := {
  code : string;
  participants_per_match : Z
}.
End Treatment.

(** A participant of a match, as far as the match methods look at it: the
    attribute [is_finished] and what [is_finished_playing()] returns. *)
Module Participant.
Record t := {
  pk : nat;
  is_finished : value;
  is_finished_playing : value
}.
End Participant.

(** The classes deriving from [BaseMatch], with the fields they add.
    [MatchInTwoPersonAsymmetricGame] defines
    [is_ready_for_next_participant]; [MatchOffer] does not. A foreign key
    that holds no participant is [None]. *)
Inductive MatchClass :=
| MatchOffer (amount_offered : option Z)
| MatchInTwoPersonAsymmetricGame (participant_1 participant_2 : option Participant.t).

(** A match object. Neither [BaseMatch] nor the two classes above declare
    the attributes [treatment] and [participant_set] that the [BaseMatch]
    methods read: a concrete class has them when it, or a participant class
    referring to it, is declared with them outside the files modelled here.
    They are [None] on an object whose class has no such attribute, as on
    every [MatchOffer]. *)
Record BaseMatch := {
  treatment : option Treatment.t;
  participant_set : option (list Participant.t);
  subclass : MatchClass
}.

(** [self.treatment] *)
Definition getattr_treatment (self : BaseMatch) : outcome Treatment.t :=
  match treatment self with
  | Some t => Returns t
  | None => Raises AttributeError
  end.

(** [self.participant_set] *)
Definition getattr_participant_set (self : BaseMatch) : outcome (list Participant.t) :=
  match participant_set self with
  | Some ps => Returns ps
  | None => Raises AttributeError
  end.

(** [self.participant_1]: the foreign key is not nullable, and reading it
    while it holds no participant raises [DoesNotExist]. *)
Definition getattr_participant_1 (participant_1 : option Participant.t)
    : outcome Participant.t :=
  match participant_1 with
  | Some p => Returns p
  | None => Raises DoesNotExist
  end.

(** [self.participant_2]: the foreign key is nullable and reads as [None]
    while it holds no participant. *)
Definition getattr_participant_2 (participant_2 : option Participant.t) : value :=
  match participant_2 with
  | Some p => VInstance "Participant" (Participant.pk p)
  | None => VNone
  end.

(** Whether the class of the match defines its own
    [is_ready_for_next_participant]. *)
Definition overrides_is_ready_for_next_participant (c : MatchClass) : bool :=
  match c with
  | MatchOffer _ => false
  | MatchInTwoPersonAsymmetricGame _ _ => true
  end.

(** [BaseMatch.is_ready_for_next_participant]. *)
Definition BaseMatch_is_ready_for_next_participant (self : BaseMatch) : outcome value :=
  Raises NotImplementedError.

(** [MatchInTwoPersonAsymmetricGame.is_ready_for_next_participant]:
    [self.participant_1 and self.participant_1.is_finished_playing()
     and not self.participant_2]. An [and] chain returns its first false
    operand, or else its last operand. *)
Definition MatchInTwoPersonAsymmetricGame_is_ready_for_next_participant
    (participant_1 participant_2 : option Participant.t) : outcome value :=
  p1 ← getattr_participant_1 participant_1;
  let first := VInstance "Participant" (Participant.pk p1) in
  if truthy first
  then
    p1 ← getattr_participant_1 participant_1;
    let playing := Participant.is_finished_playing p1 in
    if truthy playing
    then Returns (VBool (negb (truthy (getattr_participant_2 participant_2))))
    else Returns playing
  else Returns first.

(** Method resolution for [m.is_ready_for_next_participant()]. *)
Definition is_ready_for_next_participant (self : BaseMatch) : outcome value :=
  match subclass self with
  | MatchOffer _ => BaseMatch_is_ready_for_next_participant self
  | MatchInTwoPersonAsymmetricGame p1 p2 =>
      MatchInTwoPersonAsymmetricGame_is_ready_for_next_participant p1 p2
  end.

(** [BaseMatch.participants]: [self.participant_set.all()]. *)
Definition participants (self : BaseMatch) : outcome (list Participant.t) :=
  participant_set ← getattr_participant_set self;
  Returns participant_set.

(** [BaseMatch.is_full]:
    [len(self.participants()) >= self.treatment.participants_per_match]. *)
Definition is_full (self : BaseMatch) : outcome value :=
  ps ← participants self;
  t ← getattr_treatment self;
  Returns (VBool (Z.of_nat (length ps) >=? Treatment.participants_per_match t)%Z).

(** [BaseMatch.is_finished]:
    [self.is_full() and [participant.is_finished for participant in self.participants()]]. *)
Definition is_finished (self : BaseMatch) : outcome value :=
  full ← is_full self;
  if truthy full
  then ps ← participants self; Returns (VList (Participant.is_finished <$> ps))
  else Returns full.

(** A request, as far as [next_open_match] looks at it. *)
Record Request := {
  session : gmap string string
}.

(** [MatchManager.next_open_match]: the first element of the generator
    [(m for m in matches if m.treatment.code == request.session[treatment_code]
      and m.is_ready_for_next_participant())], where [treatment_code] is the
    constant [Symbols.treatment_code] and [matches] are the stored rows.
    For every row the left operand of [==] is evaluated before the session
    is read. *)
Fixpoint next_open_match (treatment_code : string) (request : Request)
    (matches : list BaseMatch) : outcome BaseMatch :=
  match matches with
  | [] => Raises StopIteration
  | m :: rest =>
      t ← getattr_treatment m;
      match session request !! treatment_code with
      | None => Raises KeyError
      | Some stored =>
          if decide (Treatment.code t = stored)
          then
            ready ← is_ready_for_next_participant m;
            if truthy ready then Returns m
            else next_open_match treatment_code request rest
          else next_open_match treatment_code request rest
      end
  end.

End matches.

(** ** ptree/sequence_of_experiments/models.py *)

Module sequence_of_experiments.

(** [ptree.constants]: the names of the two query parameters. The module is
    outside the files modelled here, so the names are taken as given. *)
Record constants := {
  sequence_of_experiments_code : string;
  participant_in_sequence_of_experiments_code : string
}.

(** An experiment object. The experiment classes are declared outside the
    files modelled here; the methods below use the two chain pointers, the
    back reference to the sequence, [_meta.app_label] and the text the
    experiment is formatted as. *)
Module Experiment.
Record t := {
  next_experiment : option nat;
  previous_experiment : option nat;
  sequence_of_experiments : option nat;
  app_label : string;
  unicode : string
}.
End Experiment.

(** A row of a participant of one experiment: the experiment it belongs to
    and the two pointers that [connect_participants_between_experiments]
    writes. *)
Module ParticipantInExperiment.
Record t := {
  experiment : nat;
  me_in_next_experiment : option nat;
  me_in_previous_experiment : option nat
}.
End ParticipantInExperiment.

Module SequenceOfExperiments.
Record t := {
  id : nat;
  label : option string;
  code : string;
  experimenter_access_code : string;
  first_experiment : option nat;
  is_for_mturk : bool;
  payment_was_sent : bool;
  preassign_matches : bool;
  start_view_name : string;
  end_view_name : string
}.
End SequenceOfExperiments.

Module Participant.
Record t := {
  id : nat;
  sequence_of_experiments : nat;
  me_in_first_experiment : option nat;
  visited : bool;
  was_terminated : bool;
  mturk_assignment_id : option string;
  mturk_worker_id : option string;
  ip_address : option string;
  label : option string
}.
End Participant.

(** The rows that [save()] has written, in order. *)
Inductive row :=
| SequenceRow (pk : nat)
| ExperimentRow (pk : nat)
| ParticipantInExperimentRow (pk : nat).

(** The objects and tables the methods work on. Experiments are objects
    addressed by reference (their primary key); the participants of the
    experiments are the rows of a table, the position of a row being its
    primary key, and are read and written through copies, as querysets do;
    [participant_rows] holds the rows of [Participant]. *)
Record Store := {
  experiment_objects : nat → Experiment.t;
  participants_in_experiments : list ParticipantInExperiment.t;
  participant_rows : list Participant.t;
  saved : list row
}.

Definition set_experiment_objects (f : nat → Experiment.t) (st : Store) : Store :=
  {| experiment_objects := f;
     participants_in_experiments := participants_in_experiments st;
     participant_rows := participant_rows st;
     saved := saved st |}.

Definition set_participants_in_experiments (rows : list ParticipantInExperiment.t)
    (st : Store) : Store :=
  {| experiment_objects := experiment_objects st;
     participants_in_experiments := rows;
     participant_rows := participant_rows st;
     saved := saved st |}.

(** [obj.save()], as far as the log of writes goes. *)
Definition save (r : row) (st : Store) : Store :=
  {| experiment_objects := experiment_objects st;
     participants_in_experiments := participants_in_experiments st;
     participant_rows := participant_rows st;
     saved := saved st ++ [r] |}.

(** [experiment.next_experiment = target] *)
Definition set_next_experiment (experiment : nat) (target : option nat) (st : Store) : Store :=
  let e := experiment_objects st experiment in
  set_experiment_objects
    (<[experiment := {| Experiment.next_experiment := target;
                        Experiment.previous_experiment := Experiment.previous_experiment e;
                        Experiment.sequence_of_experiments := Experiment.sequence_of_experiments e;
                        Experiment.app_label := Experiment.app_label e;
                        Experiment.unicode := Experiment.unicode e |}]>
       (experiment_objects st)) st.

(** [experiment.previous_experiment = target] *)
Definition set_previous_experiment (experiment : nat) (target : option nat) (st : Store) : Store :=
  let e := experiment_objects st experiment in
  set_experiment_objects
    (<[experiment := {| Experiment.next_experiment := Experiment.next_experiment e;
                        Experiment.previous_experiment := target;
                        Experiment.sequence_of_experiments := Experiment.sequence_of_experiments e;
                        Experiment.app_label := Experiment.app_label e;
                        Experiment.unicode := Experiment.unicode e |}]>
       (experiment_objects st)) st.

(** [experiment.sequence_of_experiments = target] *)
Definition set_sequence_of_experiments (experiment : nat) (target : option nat) (st : Store) : Store :=
  let e := experiment_objects st experiment in
  set_experiment_objects
    (<[experiment := {| Experiment.next_experiment := Experiment.next_experiment e;
                        Experiment.previous_experiment := Experiment.previous_experiment e;
                        Experiment.sequence_of_experiments := target;
                        Experiment.app_label := Experiment.app_label e;
                        Experiment.unicode := Experiment.unicode e |}]>
       (experiment_objects st)) st.

(** [self.first_experiment = target] *)
Definition set_first_experiment (target : option nat) (self : SequenceOfExperiments.t)
    : SequenceOfExperiments.t :=
  {| SequenceOfExperiments.id := SequenceOfExperiments.id self;
     SequenceOfExperiments.label := SequenceOfExperiments.label self;
     SequenceOfExperiments.code := SequenceOfExperiments.code self;
     SequenceOfExperiments.experimenter_access_code :=
       SequenceOfExperiments.experimenter_access_code self;
     SequenceOfExperiments.first_experiment := target;
     SequenceOfExperiments.is_for_mturk := SequenceOfExperiments.is_for_mturk self;
     SequenceOfExperiments.payment_was_sent := SequenceOfExperiments.payment_was_sent self;
     SequenceOfExperiments.preassign_matches := SequenceOfExperiments.preassign_matches self;
     SequenceOfExperiments.start_view_name := SequenceOfExperiments.start_view_name self;
     SequenceOfExperiments.end_view_name := SequenceOfExperiments.end_view_name self |}.

(** [experiment.next_experiment] *)
Definition next_experiment_of (st : Store) (experiment : nat) : option nat :=
  Experiment.next_experiment (experiment_objects st experiment).

(** [SequenceOfExperiments.experiments]: the walk along [next_experiment]
    from [self.first_experiment]. *)
Definition experiments (fuel : nat) (st : Store) (self : SequenceOfExperiments.t)
    : outcome (list nat) :=
  walk (next_experiment_of st) fuel [] (SequenceOfExperiments.first_experiment self).

(** [SequenceOfExperiments.participants]: [self.participant_set.all()], the
    rows of [Participant] whose foreign key is [self]. *)
Definition participants (st : Store) (self : SequenceOfExperiments.t) : list Participant.t :=
  filter (λ p, Participant.sequence_of_experiments p = SequenceOfExperiments.id self)
         (participant_rows st).

(** [SequenceOfExperiments.add_experiments] *)
Definition add_experiments (self : SequenceOfExperiments.t) (experiments : list nat)
    (st : Store) : outcome (SequenceOfExperiments.t * Store) :=
  first ← getitem experiments 0;
  let self := set_first_experiment (Some first) self in
  st ← for_each (range (length experiments - 1)) (λ i st,
          right ← getitem experiments (i + 1);
          left ← getitem experiments i;
          let st := set_next_experiment left (Some right) st in
          left ← getitem experiments i;
          right ← getitem experiments (i + 1);
          Returns (set_previous_experiment right (Some left) st)) st;
  st ← for_each experiments (λ experiment st,
          let st := set_sequence_of_experiments experiment
                      (Some (SequenceOfExperiments.id self)) st in
          Returns (save (ExperimentRow experiment) st)) st;
  Returns (self, save (SequenceRow (SequenceOfExperiments.id self)) st).

(** Modelled from the spec: [participants()] of an experiment, whose class
    is outside the files modelled here (the spec speaks of the experiments'
    participant lists, paired up by positional index). As the two
    [participants] methods of these files do, it is
    [self.participant_set.all()]: the rows whose experiment is [self], in
    the order of the table, each with its primary key. *)
Fixpoint rows_of_experiment (pk : nat) (rows : list ParticipantInExperiment.t)
    (experiment : nat) : list (nat * ParticipantInExperiment.t) :=
  match rows with
  | [] => []
  | r :: rows' =>
      if decide (ParticipantInExperiment.experiment r = experiment)
      then (pk, r) :: rows_of_experiment (S pk) rows' experiment
      else rows_of_experiment (S pk) rows' experiment
  end.

Definition Experiment_participants (st : Store) (experiment : nat)
    : list (nat * ParticipantInExperiment.t) :=
  rows_of_experiment 0 (participants_in_experiments st) experiment.

(** [participant.save()]: the row with the participant's primary key is
    overwritten with the fields of the copy. *)
Definition save_participant (participant : nat * ParticipantInExperiment.t) (st : Store) : Store :=
  save (ParticipantInExperimentRow participant.1)
       (set_participants_in_experiments
          (<[participant.1 := participant.2]> (participants_in_experiments st)) st).

(** [participant.me_in_next_experiment = target], on a copy of the row *)
Definition set_me_in_next_experiment (target : option nat)
    (participant : nat * ParticipantInExperiment.t) : nat * ParticipantInExperiment.t :=
  (participant.1,
   {| ParticipantInExperiment.experiment := ParticipantInExperiment.experiment participant.2;
      ParticipantInExperiment.me_in_next_experiment := target;
      ParticipantInExperiment.me_in_previous_experiment :=
        ParticipantInExperiment.me_in_previous_experiment participant.2 |}).

(** [participant.me_in_previous_experiment = target], on a copy of the row *)
Definition set_me_in_previous_experiment (target : option nat)
    (participant : nat * ParticipantInExperiment.t) : nat * ParticipantInExperiment.t :=
  (participant.1,
   {| ParticipantInExperiment.experiment := ParticipantInExperiment.experiment participant.2;
      ParticipantInExperiment.me_in_next_experiment :=
        ParticipantInExperiment.me_in_next_experiment participant.2;
      ParticipantInExperiment.me_in_previous_experiment := target |}).

(** The body of the inner loop of
    [connect_participants_between_experiments]: the two querysets are
    indexed, hence evaluated, here; the two copies are changed and saved. *)
Definition connect_participants (experiment_left experiment_right : nat)
    (participant_index : nat) (st : Store) : outcome Store :=
  participant_left ←
    getitem (Experiment_participants st experiment_left) participant_index;
  participant_right ←
    getitem (Experiment_participants st experiment_right) participant_index;
  let participant_left :=
    set_me_in_next_experiment (Some participant_right.1) participant_left in
  let participant_right :=
    set_me_in_previous_experiment (Some participant_left.1) participant_right in
  let st := save_participant participant_left st in
  Returns (save_participant participant_right st).

(** The body of the outer loop. *)
Definition connect_experiments (num_participants : nat) (experiments : list nat)
    (experiment_index : nat) (st : Store) : outcome Store :=
  experiment_left ← getitem experiments experiment_index;
  experiment_right ← getitem experiments (experiment_index + 1);
  for_each (range num_participants)
           (connect_participants experiment_left experiment_right) st.

(** [SequenceOfExperiments.connect_participants_between_experiments] *)
Definition connect_participants_between_experiments (fuel : nat)
    (self : SequenceOfExperiments.t) (st : Store) : outcome Store :=
  let num_participants := length (participants st self) in
  experiments ← experiments fuel st self;
  for_each (range (length experiments - 1))
           (connect_experiments num_participants experiments) st.

(** Reading a generic foreign key: the primary key of the row it points
    to, and [None] when it is null or the row does not exist. *)
Definition resolve (st : Store) (pointer : option nat) : option nat :=
  pk ← pointer;
  _ ← participants_in_experiments st !! pk;
  Some pk.

(** [participant.me_in_next_experiment], for the participant of an
    experiment with primary key [pk] *)
Definition me_in_next_experiment_of (st : Store) (pk : nat) : option nat :=
  r ← participants_in_experiments st !! pk;
  resolve st (ParticipantInExperiment.me_in_next_experiment r).

(** [Participant.participants]: the walk along [me_in_next_experiment]
    from [self.me_in_first_experiment]. *)
Definition Participant_participants (fuel : nat) (st : Store) (self : Participant.t)
    : outcome (list nat) :=
  walk (me_in_next_experiment_of st) fuel []
       (resolve st (Participant.me_in_first_experiment self)).

(** The attributes of a [SequenceOfExperiments] instance, and the methods
    of the class. *)
Definition SequenceOfExperiments_fields (self : SequenceOfExperiments.t)
    : list (string * value) :=
  [ ("id", VInt (Z.of_nat (SequenceOfExperiments.id self)));
    ("label", optional_str (SequenceOfExperiments.label self));
    ("code", VStr (SequenceOfExperiments.code self));
    ("experimenter_access_code", VStr (SequenceOfExperiments.experimenter_access_code self));
    ("first_experiment_object_id",
       match SequenceOfExperiments.first_experiment self with
       | Some pk => VInt (Z.of_nat pk)
       | None => VNone
       end);
    ("is_for_mturk", VBool (SequenceOfExperiments.is_for_mturk self));
    ("payment_was_sent", VBool (SequenceOfExperiments.payment_was_sent self));
    ("preassign_matches", VBool (SequenceOfExperiments.preassign_matches self));
    ("start_view_name", VStr (SequenceOfExperiments.start_view_name self));
    ("end_view_name", VStr (SequenceOfExperiments.end_view_name self)) ].

Definition SequenceOfExperiments_methods : list string :=
  [ "name"; "start_url"; "experiments"; "__unicode__"; "add_experiments";
    "connect_participants_between_experiments"; "participants" ].

Definition SequenceOfExperiments_getattr (self : SequenceOfExperiments.t) (attr : string)
    : outcome value :=
  getattr (SequenceOfExperiments_fields self) SequenceOfExperiments_methods
          (SequenceOfExperiments.id self) attr.

(** The display string that the second half of [name] computes. *)
Definition name_display (fuel : nat) (st : Store) (self : SequenceOfExperiments.t)
    : outcome string :=
  let from_experiments :=
    experiments ← experiments fuel st self;
    let experiment_names :=
      (λ experiment,
         Experiment.app_label (experiment_objects st experiment) +:+ " " +:+
         Experiment.unicode (experiment_objects st experiment)) <$> experiments in
    match experiment_names with
    | _ :: _ => Returns (String.concat ", " experiment_names)
    | [] => Returns "[empty sequence]"
    end in
  postfix ←
    match SequenceOfExperiments.label self with
    | Some label => if truthy (VStr label) then Returns label else from_experiments
    | None => from_experiments
    end;
  Returns (pretty (SequenceOfExperiments.id self) +:+ ": " +:+ postfix).

(** [SequenceOfExperiments.name] *)
Definition name (fuel : nat) (st : Store) (self : SequenceOfExperiments.t) : outcome value :=
  self_name ← SequenceOfExperiments_getattr self "name";
  if truthy self_name then Returns self_name
  else display ← name_display fuel st self; Returns (VStr display).

(** [SequenceOfExperiments.start_url] *)
Definition start_url (c : constants) (self : SequenceOfExperiments.t) : string :=
  "/InitializeSequence/?" +:+ sequence_of_experiments_code c +:+ "=" +:+
  pretty (SequenceOfExperiments.id self).

(** The attributes of a [Participant] instance, and the methods of the
    class. *)
Definition Participant_fields (self : Participant.t) : list (string * value) :=
  [ ("id", VInt (Z.of_nat (Participant.id self)));
    ("sequence_of_experiments_id", VInt (Z.of_nat (Participant.sequence_of_experiments self)));
    ("me_in_first_experiment_object_id",
       match Participant.me_in_first_experiment self with
       | Some pk => VInt (Z.of_nat pk)
       | None => VNone
       end);
    ("visited", VBool (Participant.visited self));
    ("was_terminated", VBool (Participant.was_terminated self));
    ("mturk_assignment_id", optional_str (Participant.mturk_assignment_id self));
    ("mturk_worker_id", optional_str (Participant.mturk_worker_id self));
    ("ip_address", optional_str (Participant.ip_address self));
    ("label", optional_str (Participant.label self)) ].

Definition Participant_methods : list string :=
  [ "participants"; "total_pay"; "name"; "__unicode__"; "start_url" ].

Definition Participant_getattr (self : Participant.t) (attr : string) : outcome value :=
  getattr (Participant_fields self) Participant_methods (Participant.id self) attr.

(** [Participant.start_url]. [add_params_to_url] is imported from
    [ptree.common] and is taken as given; [sequence] is the object that
    [self.sequence_of_experiments] refers to. The arguments are evaluated
    from left to right. *)
Definition Participant_start_url (c : constants)
    (add_params_to_url : string → list (string * value) → string)
    (sequence : SequenceOfExperiments.t) (self : Participant.t) : outcome string :=
  let url := start_url c sequence in
  code ← Participant_getattr self "code";
  Returns (add_params_to_url url [(participant_in_sequence_of_experiments_code c, code)]).

(** [SequenceOfExperiments.__unicode__]: [return self.unicode()]. The
    attribute is looked up first; [call] stands for calling what the lookup
    gives. *)
Definition SequenceOfExperiments_unicode (call : value → outcome value)
    (self : SequenceOfExperiments.t) : outcome value :=
  method ← SequenceOfExperiments_getattr self "unicode";
  call method.

(** [Participant.total_pay]:
    [sum(participant.total_pay() for participant in self.participants())].
    [total_pay_of] stands for the [total_pay()] of the participants of the
    experiments, whose classes are outside the files modelled here; [sum]
    adds from the left, starting at 0. *)
Definition Participant_total_pay (total_pay_of : nat → Z) (fuel : nat) (st : Store)
    (self : Participant.t) : outcome Z :=
  participants ← Participant_participants fuel st self;
  Returns (foldl (λ total participant, total + total_pay_of participant)%Z 0%Z participants).

End sequence_of_experiments.

(** ** Specification vocabulary *)

(** A pointer chain: [chain next cur l] says that following [next] from the
    pointer [cur] visits exactly the objects [l], in order, and then reaches
    the null pointer. A chain that runs into a cycle has no such list. *)
Inductive chain (next : nat → option nat) : option nat → list nat → Prop :=
| chain_null : chain next None []
| chain_step x l : chain next (next x) l → chain next (Some x) (x :: l).

(** A match is open for a request that stores the treatment code [stored]:
    it has a treatment with that code and
    [is_ready_for_next_participant()] returns a true value. *)
Definition open_for (stored : string) (m : matches.BaseMatch) : Prop :=
  (∃ t, matches.treatment m = Some t ∧ matches.Treatment.code t = stored) ∧
  ∃ v, matches.is_ready_for_next_participant m = Returns v ∧ truthy v = true.

(** The primary keys of the participants of an experiment, in the order in
    which [participants()] lists them. *)
Definition participant_pks (rows : list sequence_of_experiments.ParticipantInExperiment.t)
    (experiment : nat) : list nat :=
  (sequence_of_experiments.rows_of_experiment 0 rows experiment).*1.

(** The two pointers stored in the row with primary key [pk]. *)
Definition stored_next (rows : list sequence_of_experiments.ParticipantInExperiment.t)
    (pk : nat) : option nat :=
  r ← rows !! pk; sequence_of_experiments.ParticipantInExperiment.me_in_next_experiment r.

Definition stored_previous (rows : list sequence_of_experiments.ParticipantInExperiment.t)
    (pk : nat) : option nat :=
  r ← rows !! pk; sequence_of_experiments.ParticipantInExperiment.me_in_previous_experiment r.

(** Participant [i] of experiment [k] of the chain [es] and participant [i]
    of experiment [k + 1] point to each other in the table [rows]; who the
    participants are is read off the table [rows0]. *)
Definition linked (es : list nat)
    (rows0 rows : list sequence_of_experiments.ParticipantInExperiment.t)
    (k i : nat) : Prop :=
  ∃ el er l r,
    es !! k = Some el ∧ es !! S k = Some er ∧
    participant_pks rows0 el !! i = Some l ∧
    participant_pks rows0 er !! i = Some r ∧
    stored_next rows l = Some r ∧ stored_previous rows r = Some l.

(** [experiment.previous_experiment] and [experiment.sequence_of_experiments] *)
Definition previous_experiment_of (st : sequence_of_experiments.Store)
    (experiment : nat) : option nat :=
  sequence_of_experiments.Experiment.previous_experiment
    (sequence_of_experiments.experiment_objects st experiment).

Definition sequence_of (st : sequence_of_experiments.Store) (experiment : nat) : option nat :=
  sequence_of_experiments.Experiment.sequence_of_experiments
    (sequence_of_experiments.experiment_objects st experiment).

(** ** Concrete objects *)

Module examples.
Import matches.

Definition treatment_T : Treatment.t :=
  {| Treatment.code := "T"; Treatment.participants_per_match := 1 |}.

Definition treatment_U : Treatment.t :=
  {| Treatment.code := "U"; Treatment.participants_per_match := 2 |}.

Definition unfinished_participant : Participant.t :=
  {| Participant.pk := 1;
     Participant.is_finished := VBool false;
     Participant.is_finished_playing := VBool false |}.

Definition finished_participant : Participant.t :=
  {| Participant.pk := 2;
     Participant.is_finished := VBool true;
     Participant.is_finished_playing := VBool true |}.

(** A full match, of a class with a treatment and participants, whose
    only participant has not finished. *)
Definition full_unfinished_match : BaseMatch :=
  {| treatment := Some treatment_T;
     participant_set := Some [unfinished_participant];
     subclass := MatchInTwoPersonAsymmetricGame (Some unfinished_participant) None |}.

(** A [MatchOffer]: no treatment, no participants, and no
    [is_ready_for_next_participant] of its own. *)
Definition offer_match : BaseMatch :=
  {| treatment := None;
     participant_set := None;
     subclass := MatchOffer (Some 50%Z) |}.

(** A two-person match waiting for its second participant. *)
Definition waiting_match : BaseMatch :=
  {| treatment := Some treatment_T;
     participant_set := Some [finished_participant];
     subclass := MatchInTwoPersonAsymmetricGame (Some finished_participant) None |}.

(** A two-person match of another treatment, whose first participant is
    not set: its [is_ready_for_next_participant()] raises. *)
Definition other_treatment_match : BaseMatch :=
  {| treatment := Some treatment_U;
     participant_set := Some [];
     subclass := MatchInTwoPersonAsymmetricGame None None |}.

Definition request_T : Request :=
  {| session := {[ "treatment_code" := "T" ]} |}.

End examples.

Module sequence_examples.
Import sequence_of_experiments.

Definition some_constants : constants :=
  {| sequence_of_experiments_code := "sequence_of_experiments_code";
     participant_in_sequence_of_experiments_code :=
       "participant_in_sequence_of_experiments_code" |}.

(** A sequence with primary key 7 and code [abcdefgh]. *)
Definition sequence_7 : SequenceOfExperiments.t :=
  {| SequenceOfExperiments.id := 7;
     SequenceOfExperiments.label := Some "pilot";
     SequenceOfExperiments.code := "abcdefgh";
     SequenceOfExperiments.experimenter_access_code := "stuvwxyz";
     SequenceOfExperiments.first_experiment := None;
     SequenceOfExperiments.is_for_mturk := true;
     SequenceOfExperiments.payment_was_sent := false;
     SequenceOfExperiments.preassign_matches := false;
     SequenceOfExperiments.start_view_name := "start";
     SequenceOfExperiments.end_view_name := "end" |}.

(** A participant of [sequence_7]. *)
Definition participant_3 : Participant.t :=
  {| Participant.id := 3;
     Participant.sequence_of_experiments := 7;
     Participant.me_in_first_experiment := None;
     Participant.visited := false;
     Participant.was_terminated := false;
     Participant.mturk_assignment_id := None;
     Participant.mturk_worker_id := None;
     Participant.ip_address := None;
     Participant.label := None |}.

(** Two experiments, 0 and then 1, each with two participants: rows 0 and
    1 take part in experiment 0, rows 2 and 3 in experiment 1. Nothing is
    linked yet. *)
Definition blank_experiment : Experiment.t :=
  {| Experiment.next_experiment := None;
     Experiment.previous_experiment := None;
     Experiment.sequence_of_experiments := None;
     Experiment.app_label := "game";
     Experiment.unicode := "experiment" |}.

Definition blank_row (experiment : nat) : ParticipantInExperiment.t :=
  {| ParticipantInExperiment.experiment := experiment;
     ParticipantInExperiment.me_in_next_experiment := None;
     ParticipantInExperiment.me_in_previous_experiment := None |}.

Definition participant_4 : Participant.t :=
  {| Participant.id := 4;
     Participant.sequence_of_experiments := 7;
     Participant.me_in_first_experiment := Some 1;
     Participant.visited := false;
     Participant.was_terminated := false;
     Participant.mturk_assignment_id := None;
     Participant.mturk_worker_id := None;
     Participant.ip_address := None;
     Participant.label := None |}.

Definition blank_store : Store :=
  {| experiment_objects := λ _, blank_experiment;
     participants_in_experiments := [blank_row 0; blank_row 0; blank_row 1; blank_row 1];
     participant_rows := [participant_3; participant_4];
     saved := [] |}.

(** The sequence and the store after [add_experiments] with the list
    [[0; 1]]. *)
Definition chained_sequence : SequenceOfExperiments.t :=
  set_first_experiment (Some 0) sequence_7.

Definition chained_store : Store :=
  set_previous_experiment 1 (Some 0) (set_next_experiment 0 (Some 1) blank_store).

(** The store in which, in addition, row 1 points to row 3. *)
Definition linked_store : Store :=
  set_participants_in_experiments
    [blank_row 0;
     {| ParticipantInExperiment.experiment := 0;
        ParticipantInExperiment.me_in_next_experiment := Some 3;
        ParticipantInExperiment.me_in_previous_experiment := None |};
     blank_row 1;
     {| ParticipantInExperiment.experiment := 1;
        ParticipantInExperiment.me_in_next_experiment := None;
        ParticipantInExperiment.me_in_previous_experiment := Some 1 |}]
    chained_store.

End sequence_examples.

(** ** Matches *)

Lemma bind_Returns {A B} (a : A) (f : A → outcome B) : Returns a ≫= f = f a.
Proof. reflexivity. Qed.

Section match_lifecycle.
Import matches.

Lemma participants_returns (m : BaseMatch) (ps : list Participant.t) :
  participant_set m = Some ps → participants m = Returns ps.
Proof. unfold participants, getattr_participant_set. by intros ->. Qed.

Lemma participants_raises (m : BaseMatch) :
  participant_set m = None → participants m = Raises AttributeError.
Proof. unfold participants, getattr_participant_set. by intros ->. Qed.

Lemma is_full_returns (m : BaseMatch) (t : Treatment.t) (ps : list Participant.t) :
  treatment m = Some t → participant_set m = Some ps →
  is_full m =
  Returns (VBool (Z.of_nat (length ps) >=? Treatment.participants_per_match t)%Z).
Proof.
  intros Ht Hps. unfold is_full, getattr_treatment.
  by rewrite (participants_returns _ _ Hps), bind_Returns, Ht.
Qed.

(** [is_full] fails with [AttributeError], and only when the match has no
    participant relation or no treatment. *)
Lemma is_full_raises (m : BaseMatch) (e : exn) :
  is_full m = Raises e ↔
  e = AttributeError ∧ (participant_set m = None ∨ treatment m = None).
Proof.
  unfold is_full, participants, getattr_participant_set, getattr_treatment.
  destruct (participant_set m) as [ps|], (treatment m) as [t|]; simpl;
    (split; [intros [= <-] || intros [=]|intros [-> [[=]|[=]]]]); auto.
Qed.

(** What [is_finished] computes on a match with a treatment and
    participants: [False] for a match that is not full, and otherwise the
    list of the participants' [is_finished] attributes. *)
Lemma is_finished_returns (m : BaseMatch) (t : Treatment.t) (ps : list Participant.t) :
  treatment m = Some t → participant_set m = Some ps →
  is_finished m =
  if (Z.of_nat (length ps) >=? Treatment.participants_per_match t)%Z
  then Returns (VList (Participant.is_finished <$> ps))
  else Returns (VBool false).
Proof.
  intros Ht Hps. unfold is_finished.
  rewrite (is_full_returns _ _ _ Ht Hps), bind_Returns. simpl.
  destruct (_ >=? _)%Z; [|reflexivity].
  by rewrite (participants_returns _ _ Hps).
Qed.

Lemma is_finished_raises (m : BaseMatch) (e : exn) :
  is_finished m = Raises e ↔
  e = AttributeError ∧ (participant_set m = None ∨ treatment m = None).
Proof.
  destruct (participant_set m) as [ps|] eqn:Hps, (treatment m) as [t|] eqn:Ht.
  - rewrite (is_finished_returns _ _ _ Ht Hps).
    split; [by destruct (_ >=? _)%Z|intros [_ [[=]|[=]]]].
  - unfold is_finished.
    assert (is_full m = Raises AttributeError) as ->
      by (apply is_full_raises; auto).
    split; [intros [= <-]; auto|by intros [-> _]].
  - unfold is_finished.
    assert (is_full m = Raises AttributeError) as ->
      by (apply is_full_raises; auto).
    split; [intros [= <-]; auto|by intros [-> _]].
  - unfold is_finished.
    assert (is_full m = Raises AttributeError) as ->
      by (apply is_full_raises; auto).
    split; [intros [= <-]; auto|by intros [-> _]].
Qed.

(** C6: on a match with a treatment, [participants()] returns the match's
    participants, and [is_full()] returns [True] exactly when their number
    is at least the treatment's [participants_per_match], and [False]
    otherwise. *)
Theorem is_full_iff_capacity_reached (m : BaseMatch) (t : Treatment.t)
    (ps : list Participant.t) :
  treatment m = Some t →
  participant_set m = Some ps →
  participants m = Returns ps ∧
  (∃ b, is_full m = Returns (VBool b)) ∧
  (is_full m = Returns (VBool true) ↔
     (Treatment.participants_per_match t ≤ Z.of_nat (length ps))%Z) ∧
  (is_full m = Returns (VBool false) ↔
     (Z.of_nat (length ps) < Treatment.participants_per_match t)%Z).
Proof.
  intros Ht Hps. split; [by apply participants_returns|].
  rewrite (is_full_returns _ _ _ Ht Hps), Z.geb_leb.
  split; [eauto|].
  destruct (Z.leb_spec (Treatment.participants_per_match t) (Z.of_nat (length ps)))
    as [Hle|Hlt].
  - split; split; intros H; try reflexivity; try lia; discriminate H.
  - split; split; intros H; try reflexivity; try lia; discriminate H.
Qed.

Lemma is_full_iff_capacity_reached_witness :
  participants examples.waiting_match = Returns [examples.finished_participant] ∧
  is_full examples.waiting_match = Returns (VBool true).
Proof.
  destruct (is_full_iff_capacity_reached examples.waiting_match examples.treatment_T
              [examples.finished_participant]) as (Hps & _ & Hfull & _).
  - reflexivity.
  - reflexivity.
  - split; [exact Hps|]. apply Hfull. simpl. lia.
Defined.

(** [is_finished()] is a true value exactly when the match is full and has
    at least one participant, whatever the participants report. *)
Lemma is_finished_truthy (m : BaseMatch) (t : Treatment.t) (ps : list Participant.t) :
  treatment m = Some t → participant_set m = Some ps →
  ∃ v, is_finished m = Returns v ∧
    (truthy v = true ↔
       (Treatment.participants_per_match t ≤ Z.of_nat (length ps))%Z ∧ ps ≠ []).
Proof.
  intros Ht Hps. rewrite (is_finished_returns _ _ _ Ht Hps), Z.geb_leb.
  destruct (Z.leb_spec (Treatment.participants_per_match t) (Z.of_nat (length ps)))
    as [Hle|Hlt].
  - eexists; split; [reflexivity|]. simpl.
    destruct ps; simpl; split; try done.
    intros [_ []]; done.
  - eexists; split; [reflexivity|]. simpl. split; [done|]. intros [? _]; lia.
Qed.

(** C1: at a full match whose only participant has [is_finished] false,
    [is_finished()] returns the one-element list [[False]], which is a true
    value; the match counts as finished although a participant has not
    finished. *)
Theorem is_finished_full_match_unfinished_participant :
  is_full examples.full_unfinished_match = Returns (VBool true) ∧
  (λ ps : list Participant.t, Participant.is_finished <$> ps)
    <$> participant_set examples.full_unfinished_match
    = Some [VBool false] ∧
  is_finished examples.full_unfinished_match = Returns (VList [VBool false]) ∧
  truthy (VList [VBool false]) = true.
Proof. repeat split. Qed.

(** What the two-person method does: it raises [DoesNotExist] while
    [participant_1] is not set, and otherwise returns what
    [is_finished_playing()] gives when that is false, and else whether
    [participant_2] is null. *)
Lemma asymmetric_is_ready_cases (p1 p2 : option Participant.t) :
  MatchInTwoPersonAsymmetricGame_is_ready_for_next_participant p1 p2
  = match p1 with
    | None => Raises DoesNotExist
    | Some p =>
        if truthy (Participant.is_finished_playing p)
        then Returns (VBool (bool_decide (p2 = None)))
        else Returns (Participant.is_finished_playing p)
    end.
Proof.
  unfold MatchInTwoPersonAsymmetricGame_is_ready_for_next_participant.
  destruct p1 as [p|]; [|reflexivity]. simpl.
  destruct (truthy (Participant.is_finished_playing p)); [|reflexivity].
  by destruct p2.
Qed.

(** C5: for a [MatchInTwoPersonAsymmetricGame],
    [is_ready_for_next_participant()] returns a true value, and then the
    boolean [True], exactly when [participant_1] is set,
    [participant_1.is_finished_playing()] is true and [participant_2] is
    null. With [participant_1] set the call returns; without it, reading
    the foreign key raises [DoesNotExist]. *)
Theorem asymmetric_is_ready_iff (t : option Treatment.t)
    (ps : option (list Participant.t)) (p1 p2 : option Participant.t) :
  let m := {| treatment := t; participant_set := ps;
              subclass := MatchInTwoPersonAsymmetricGame p1 p2 |} in
  ((∃ v, is_ready_for_next_participant m = Returns v ∧ truthy v = true) ↔
     (∃ p, p1 = Some p ∧ truthy (Participant.is_finished_playing p) = true) ∧
     p2 = None) ∧
  (is_ready_for_next_participant m = Returns (VBool true) ↔
     (∃ p, p1 = Some p ∧ truthy (Participant.is_finished_playing p) = true) ∧
     p2 = None) ∧
  match p1 with
  | Some p =>
      ∃ v, is_ready_for_next_participant m = Returns v ∧
           (truthy v = true → v = VBool true)
  | None => is_ready_for_next_participant m = Raises DoesNotExist
  end.
Proof.
  intros m. unfold m, is_ready_for_next_participant; simpl.
  rewrite asymmetric_is_ready_cases.
  destruct p1 as [p|].
  - destruct (truthy (Participant.is_finished_playing p)) eqn:Hplaying.
    + destruct p2 as [q|]; simpl.
      * split; [|split].
        -- split; [intros (v & [= <-] & Hv); done|intros [_ [=]]].
        -- split; [done|intros [_ [=]]].
        -- eexists; split; [reflexivity|done].
      * split; [|split].
        -- split; [eauto|]. intros _. by exists (VBool true).
        -- split; eauto.
        -- eexists; split; [reflexivity|done].
    + split; [|split].
      * split.
        -- intros (v & [= <-] & Hv). congruence.
        -- intros [(q & [= <-] & Hq) _]. congruence.
      * split.
        -- intros [= Hv]. rewrite Hv in Hplaying. done.
        -- intros [(q & [= <-] & Hq) _]. congruence.
      * eexists; split; [reflexivity|]. intros Hv. congruence.
  - split; [|split; [|reflexivity]].
    + split; [by intros (v & [=] & _)|by intros [(q & [=] & _) _]].
    + split; [done|by intros [(q & [=] & _) _]].
Qed.

(** [is_ready_for_next_participant()] returns exactly on the two-person
    matches whose [participant_1] is set. *)
Lemma is_ready_returns_iff (m : BaseMatch) :
  (∃ v, is_ready_for_next_participant m = Returns v) ↔
  ∃ p p2, subclass m = MatchInTwoPersonAsymmetricGame (Some p) p2.
Proof.
  destruct m as [t ps [a|p1 p2]]; unfold is_ready_for_next_participant; simpl.
  - split; [by intros [v [=]]|by intros (p & p2 & [=])].
  - rewrite asymmetric_is_ready_cases. destruct p1 as [p|].
    + split; [eauto|]. intros _.
      destruct (truthy (Participant.is_finished_playing p)); eauto.
    + split; [by intros [v [=]]|by intros (p & p2' & [=])].
Qed.

(** C9 (amended): on a match whose class does not define
    [is_ready_for_next_participant], the call raises
    [NotImplementedError] and nothing else. The other lifecycle predicates
    of [BaseMatch] fail too, with [AttributeError] and only with it:
    [participants] on a match without participant relation, [is_full] and
    [is_finished] on a match without participant relation or without
    treatment. *)
Theorem unimplemented_is_ready_raises (m : BaseMatch) :
  overrides_is_ready_for_next_participant (subclass m) = false →
  is_ready_for_next_participant m = Raises NotImplementedError ∧
  BaseMatch_is_ready_for_next_participant m = Raises NotImplementedError ∧
  (∀ e, is_ready_for_next_participant m = Raises e → e = NotImplementedError) ∧
  (∀ e, participants m = Raises e ↔ e = AttributeError ∧ participant_set m = None) ∧
  (∀ e, is_full m = Raises e ↔
        e = AttributeError ∧ (participant_set m = None ∨ treatment m = None)) ∧
  (∀ e, is_finished m = Raises e ↔
        e = AttributeError ∧ (participant_set m = None ∨ treatment m = None)) ∧
  participants m ≠ Unfinished ∧ is_full m ≠ Unfinished ∧ is_finished m ≠ Unfinished.
Proof.
  intros Hbase.
  assert (is_ready_for_next_participant m = Raises NotImplementedError) as Hready.
  { destruct m as [t ps [a|p1 p2]]; simpl in Hbase; [reflexivity|done]. }
  split; [exact Hready|]. split; [reflexivity|]. split.
  { intros e. rewrite Hready. congruence. }
  split; [|split; [apply is_full_raises|split; [apply is_finished_raises|]]].
  - intros e. destruct (participant_set m) as [ps|] eqn:Hps.
    + rewrite (participants_returns _ _ Hps). split; [done|by intros [_ [=]]].
    + rewrite (participants_raises _ Hps). split; [by intros [= <-]|by intros [-> _]].
  - destruct (participant_set m) as [ps|] eqn:Hps, (treatment m) as [t|] eqn:Ht.
    + rewrite (participants_returns _ _ Hps), (is_full_returns _ _ _ Ht Hps),
        (is_finished_returns _ _ _ Ht Hps).
      repeat split; try done. by destruct (_ >=? _)%Z.
    + rewrite (participants_returns _ _ Hps).
      assert (is_full m = Raises AttributeError) as -> by (apply is_full_raises; auto).
      assert (is_finished m = Raises AttributeError) as ->
        by (apply is_finished_raises; auto).
      done.
    + rewrite (participants_raises _ Hps).
      assert (is_full m = Raises AttributeError) as -> by (apply is_full_raises; auto).
      assert (is_finished m = Raises AttributeError) as ->
        by (apply is_finished_raises; auto).
      done.
    + rewrite (participants_raises _ Hps).
      assert (is_full m = Raises AttributeError) as -> by (apply is_full_raises; auto).
      assert (is_finished m = Raises AttributeError) as ->
        by (apply is_finished_raises; auto).
      done.
Qed.

Lemma unimplemented_is_ready_raises_witness :
  overrides_is_ready_for_next_participant (subclass examples.offer_match) = false ∧
  is_ready_for_next_participant examples.offer_match = Raises NotImplementedError.
Proof.
  split; [reflexivity|].
  apply (unimplemented_is_ready_raises examples.offer_match). reflexivity.
Defined.

(** C9 (as stated) fails: on a [MatchOffer], whose class does not define
    [is_ready_for_next_participant], the other lifecycle predicates raise
    [AttributeError], so [NotImplementedError] is not the only failure of
    the predicates. *)
Lemma lifecycle_predicates_AttributeError_counterexample :
  overrides_is_ready_for_next_participant (subclass examples.offer_match) = false ∧
  ¬ (∀ e, participants examples.offer_match = Raises e ∨
          is_full examples.offer_match = Raises e ∨
          is_finished examples.offer_match = Raises e ∨
          is_ready_for_next_participant examples.offer_match = Raises e →
          e = NotImplementedError).
Proof.
  split; [reflexivity|]. intros Honly.
  assert (AttributeError = NotImplementedError) as Heq
    by (apply Honly; right; left; reflexivity).
  discriminate Heq.
Qed.

End match_lifecycle.

Section match_assignment.
Import matches.

Variable treatment_code : string.
Variable request : Request.
Variable stored : string.
Hypothesis session_stores : session request !! treatment_code = Some stored.

(** The generator stops at a match that is open. *)
Lemma next_open_match_open (m : BaseMatch) (rest : list BaseMatch) :
  open_for stored m →
  next_open_match treatment_code request (m :: rest) = Returns m.
Proof using session_stores.
  intros [(t & Ht & Hcode) (v & Hready & Hv)]. simpl.
  unfold getattr_treatment. rewrite Ht, bind_Returns, session_stores.
  rewrite decide_True by done. rewrite Hready, bind_Returns. by rewrite Hv.
Qed.

(** The generator skips a match that has a treatment and is not open, when
    its [is_ready_for_next_participant()] returns or its treatment code
    differs (the method is then not called). *)
Lemma next_open_match_skip (m : BaseMatch) (rest : list BaseMatch) (t : Treatment.t) :
  treatment m = Some t →
  ¬ open_for stored m →
  (Treatment.code t = stored → ∃ v, is_ready_for_next_participant m = Returns v) →
  next_open_match treatment_code request (m :: rest)
  = next_open_match treatment_code request rest.
Proof using session_stores.
  intros Ht Hclosed Hready. simpl.
  unfold getattr_treatment. rewrite Ht, bind_Returns, session_stores.
  destruct (decide (Treatment.code t = stored)) as [Hcode|]; [|done].
  destruct (Hready Hcode) as [v Hv].
  rewrite Hv, bind_Returns. destruct (truthy v) eqn:Htrue; [|done].
  destruct Hclosed. split; eauto.
Qed.

Lemma open_for_decidable (m : BaseMatch) : open_for stored m ∨ ¬ open_for stored m.
Proof.
  unfold open_for.
  destruct (treatment m) as [t|]; [|right; by intros [(t & [=] & _) _]].
  destruct (decide (Treatment.code t = stored)) as [Hcode|Hcode];
    [|right; intros [(t' & [= <-] & ?) _]; done].
  destruct (is_ready_for_next_participant m) as [v| |] eqn:Hready;
    [|right; intros [_ (? & ? & _)]; done..].
  destruct (truthy v) eqn:Hv; [left; split; eauto|].
  right. intros [_ (w & [= <-] & Hw)]. congruence.
Qed.

(** C2 (amended): when the session stores a treatment code, every stored
    match has a treatment, and [is_ready_for_next_participant()] returns
    on every stored match that carries the stored code,
    [next_open_match] returns the first stored match that has the stored
    code and is ready for the next participant, and raises
    [StopIteration] exactly when no stored match is so. *)
Theorem next_open_match_first_open (ms : list BaseMatch) :
  (∀ m, m ∈ ms →
     ∃ t, treatment m = Some t ∧
          (Treatment.code t = stored →
           ∃ v, is_ready_for_next_participant m = Returns v)) →
  (∀ m, next_open_match treatment_code request ms = Returns m ↔
        ∃ pre post, ms = pre ++ m :: post ∧ open_for stored m ∧
                    ∀ m', m' ∈ pre → ¬ open_for stored m') ∧
  (next_open_match treatment_code request ms = Raises StopIteration ↔
     ∀ m, m ∈ ms → ¬ open_for stored m).
Proof using session_stores.
  induction ms as [|m0 ms IH]; intros Hclass.
  - split.
    + intros m. split; [done|]. intros (pre & post & Hms & _).
      by destruct pre.
    + split; [|done]. intros _ m Hm. by apply elem_of_nil in Hm.
  - destruct IH as [IHret IHstop].
    { intros m Hm. apply Hclass. by right. }
    destruct (open_for_decidable m0) as [Hopen|Hclosed].
    + rewrite next_open_match_open by done. split.
      * intros m. split.
        -- intros [= <-]. exists [], ms. split; [done|]. split; [done|].
           intros m' Hm'. by apply elem_of_nil in Hm'.
        -- intros (pre & post & Hms & Hm & Hpre).
           destruct pre as [|m1 pre]; simpl in Hms.
           ++ congruence.
           ++ injection Hms as <- _. destruct (Hpre m0); [by left|done].
      * split; [done|]. intros Hnone. destruct (Hnone m0); [by left|done].
    + destruct (Hclass m0) as (t0 & Ht0 & Hready0); [by left|].
      rewrite (next_open_match_skip m0 ms t0) by done. split.
      * intros m. rewrite IHret. split.
        -- intros (pre & post & -> & Hm & Hpre). exists (m0 :: pre), post.
           split; [done|]. split; [done|].
           intros m' [->|Hm']%elem_of_cons; auto.
        -- intros (pre & post & Hms & Hm & Hpre).
           destruct pre as [|m1 pre]; simpl in Hms.
           ++ injection Hms as <- _. done.
           ++ injection Hms as <- ->. exists pre, post.
              split; [done|]. split; [done|]. intros m' Hm'. apply Hpre. by right.
      * rewrite IHstop. split.
        -- intros Hnone m [->|Hm]%elem_of_cons; auto.
        -- intros Hnone m Hm. apply Hnone. by right.
Qed.

End match_assignment.

Lemma next_open_match_first_open_witness :
  matches.next_open_match "treatment_code" examples.request_T [examples.waiting_match]
  = Returns examples.waiting_match.
Proof.
  apply (next_open_match_first_open "treatment_code" examples.request_T "T").
  - vm_compute. reflexivity.
  - intros m ->%list_elem_of_singleton. exists examples.treatment_T.
    split; [reflexivity|]. intros _. by exists (VBool true).
  - exists [], []. split; [reflexivity|]. split.
    + split; [by exists examples.treatment_T|].
      exists (VBool true). split; reflexivity.
    + intros m' Hm'. by apply elem_of_nil in Hm'.
Defined.

(** C2 (as stated) fails: with a [MatchOffer] stored, reading
    [m.treatment] raises [AttributeError], so [next_open_match] does not
    raise [StopIteration] although no stored match is open for the
    request. *)
Lemma next_open_match_MatchOffer_counterexample :
  matches.next_open_match "treatment_code" examples.request_T [examples.offer_match]
    = Raises AttributeError ∧
  ¬ (matches.next_open_match "treatment_code" examples.request_T [examples.offer_match]
       = Raises StopIteration ↔
     ∀ m, m ∈ [examples.offer_match] → ¬ open_for "T" m).
Proof.
  assert (matches.next_open_match "treatment_code" examples.request_T
            [examples.offer_match] = Raises AttributeError) as Hraise
    by reflexivity.
  split; [exact Hraise|]. intros [_ Hstop].
  rewrite Hraise in Hstop. discriminate Hstop.
  intros m ->%list_elem_of_singleton [(t & [=] & _) _].
Qed.

(** ** Names and URLs *)

Section names_and_urls.
Import sequence_of_experiments.

(** [self.name] is the method [name] bound to [self]: the class has no
    field of that name. *)
Lemma self_name_is_bound_method (self : SequenceOfExperiments.t) :
  SequenceOfExperiments_getattr self "name"
  = Returns (VMethod "name" (SequenceOfExperiments.id self)).
Proof. reflexivity. Qed.

(** C10: [name()] returns from its first branch with the bound method
    [self.name], a true value, for every sequence, store and amount of
    fuel; it never returns a string, in particular not the display string
    of the second half of the method. *)
Theorem name_returns_bound_method (fuel : nat) (st : Store)
    (self : SequenceOfExperiments.t) :
  SequenceOfExperiments_getattr self "name"
    = Returns (VMethod "name" (SequenceOfExperiments.id self)) ∧
  truthy (VMethod "name" (SequenceOfExperiments.id self)) = true ∧
  name fuel st self = Returns (VMethod "name" (SequenceOfExperiments.id self)) ∧
  (∀ display, name fuel st self ≠ Returns (VStr display)).
Proof.
  assert (name fuel st self = Returns (VMethod "name" (SequenceOfExperiments.id self)))
    as Hname by reflexivity.
  split; [reflexivity|]. split; [reflexivity|]. split; [exact Hname|].
  intros display. rewrite Hname. discriminate.
Qed.

(** The URL of a sequence is determined by the constant and the primary
    key; the sequence's [code] does not enter it. *)
Lemma start_url_of_id (c : constants) (s1 s2 : SequenceOfExperiments.t) :
  SequenceOfExperiments.id s1 = SequenceOfExperiments.id s2 →
  start_url c s1 = start_url c s2.
Proof. unfold start_url. by intros ->. Qed.

(** [Participant] declares no field or method [code]. *)
Lemma Participant_has_no_code (self : Participant.t) :
  Participant_getattr self "code" = Raises AttributeError.
Proof. reflexivity. Qed.

(** C8: for the sequence with primary key 7 and code [abcdefgh],
    [start_url()] is [/InitializeSequence/?sequence_of_experiments_code=7]:
    the query parameter holds the primary key and the code occurs nowhere
    in the URL; and [Participant.start_url()] raises [AttributeError] when
    it reads [self.code]. *)
Theorem start_url_embeds_id :
  start_url sequence_examples.some_constants sequence_examples.sequence_7
    = "/InitializeSequence/?sequence_of_experiments_code=7" ∧
  SequenceOfExperiments.code sequence_examples.sequence_7 = "abcdefgh" ∧
  (∀ add_params_to_url,
     Participant_start_url sequence_examples.some_constants add_params_to_url
       sequence_examples.sequence_7 sequence_examples.participant_3
     = Raises AttributeError).
Proof. repeat split. Qed.

End names_and_urls.

(** ** Chains and their traversal *)

Section chain_walk.
Variable next : nat → option nat.

(** Enough fuel for a chain: the walk returns it, after what was collected
    before. *)
Lemma walk_complete (cur : option nat) (l : list nat) :
  chain next cur l →
  ∀ fuel lst, length l < fuel → walk next fuel lst cur = Returns (lst ++ l).
Proof.
  induction 1 as [|x l _ IH]; intros fuel lst Hfuel.
  - destruct fuel; [lia|]. simpl. by rewrite app_nil_r.
  - destruct fuel; [simpl in Hfuel; lia|]. simpl.
    rewrite IH by (simpl in Hfuel; lia). by rewrite <- app_assoc.
Qed.

(** A walk that returns has followed a chain. *)
Lemma walk_sound (fuel : nat) :
  ∀ lst cur r, walk next fuel lst cur = Returns r →
  ∃ l, r = lst ++ l ∧ chain next cur l.
Proof.
  induction fuel as [|fuel IH]; intros lst cur r Hwalk; [done|].
  simpl in Hwalk. destruct cur as [x|].
  - destruct (IH _ _ _ Hwalk) as (l & -> & Hl).
    exists (x :: l). split; [by rewrite <- app_assoc|]. by constructor.
  - injection Hwalk as <-. exists []. split; [by rewrite app_nil_r|]. constructor.
Qed.

Lemma walk_never_raises (fuel : nat) :
  ∀ lst cur e, walk next fuel lst cur ≠ Raises e.
Proof.
  induction fuel as [|fuel IH]; intros lst cur e; [done|].
  simpl. destruct cur; [apply IH|done].
Qed.

(** An object that points to itself is never left. *)
Lemma walk_self_loop (x : nat) :
  next x = Some x → ∀ fuel lst, walk next fuel lst (Some x) = Unfinished.
Proof.
  intros Hx. induction fuel as [|fuel IH]; intros lst; [done|].
  simpl. rewrite Hx. apply IH.
Qed.

Lemma chain_functional (cur : option nat) (l1 l2 : list nat) :
  chain next cur l1 → chain next cur l2 → l1 = l2.
Proof.
  intros H1. revert l2. induction H1 as [|x l _ IH]; intros l2 H2.
  - by inversion H2.
  - inversion H2; subst. f_equal. by apply IH.
Qed.

Lemma chain_suffix (cur : option nat) (l1 l2 : list nat) :
  chain next cur (l1 ++ l2) → ∃ cur', chain next cur' l2.
Proof.
  revert cur. induction l1 as [|x l1 IH]; intros cur Hc; simpl in Hc; [eauto|].
  inversion Hc; subst. eauto.
Qed.

(** A chain visits no object twice: it is acyclic. *)
Lemma chain_NoDup (cur : option nat) (l : list nat) :
  chain next cur l → NoDup l.
Proof.
  induction 1 as [|x l Hl IH]; constructor; [|done].
  intros (l1 & l2 & ->)%list_elem_of_split.
  destruct (chain_suffix _ _ _ Hl) as [cur' Hsuffix].
  inversion Hsuffix; subst.
  assert (l1 ++ x :: l2 = l2) as Heq by (eapply chain_functional; eauto).
  apply (f_equal length) in Heq. rewrite length_app in Heq. simpl in Heq. lia.
Qed.

(** The pointers along a chain. *)
Lemma chain_lookup (cur : option nat) (l : list nat) :
  chain next cur l →
  cur = l !! 0 ∧ ∀ i x, l !! i = Some x → next x = l !! S i.
Proof.
  induction 1 as [|x l _ [IH0 IH]]; [done|]. split; [done|].
  intros [|i] y Hy; simpl in *.
  - by injection Hy as <-.
  - eauto.
Qed.

Lemma chain_of_lookup (l : list nat) :
  (∀ i x, l !! i = Some x → next x = l !! S i) → chain next (l !! 0) l.
Proof.
  induction l as [|x l IH]; intros Hl; [constructor|]. simpl.
  constructor. rewrite (Hl 0 x eq_refl). simpl. apply IH.
  intros i y Hy. apply (Hl (S i) y Hy).
Qed.

End chain_walk.

(** Chains depend on the pointers of the visited objects only. *)
Lemma chain_ext (next next' : nat → option nat) (cur : option nat) (l : list nat) :
  (∀ x, x ∈ l → next x = next' x) → chain next cur l → chain next' cur l.
Proof.
  intros Hext Hc. induction Hc as [|x l Hl IH]; constructor.
  rewrite <- Hext by (by left). apply IH. intros y Hy. apply Hext. by right.
Qed.

Section traversal.
Import sequence_of_experiments.

(** When [experiments()] returns, what it returns is the chain from
    [first_experiment], and no experiment occurs in it twice. *)
Lemma experiments_sound (fuel : nat) (st : Store) (self : SequenceOfExperiments.t)
    (l : list nat) :
  experiments fuel st self = Returns l →
  chain (next_experiment_of st) (SequenceOfExperiments.first_experiment self) l ∧
  NoDup l.
Proof.
  unfold experiments. intros (l' & -> & Hchain)%walk_sound. simpl.
  split; [done|]. by eapply chain_NoDup.
Qed.

(** C7: when the experiments reachable from [first_experiment] form a chain
    [es] ending in the null pointer, [experiments()] returns with any fuel
    above the length of the chain, and returns exactly [es]; likewise
    [Participant.participants()] returns the chain [ps] that starts at
    [me_in_first_experiment]. The returned lists have the lengths of the
    chains. *)
Theorem traversals_return_the_chain (st : Store) (sequence : SequenceOfExperiments.t)
    (participant : Participant.t) (es ps : list nat) :
  chain (next_experiment_of st) (SequenceOfExperiments.first_experiment sequence) es →
  chain (me_in_next_experiment_of st)
        (resolve st (Participant.me_in_first_experiment participant)) ps →
  (∀ fuel, length es < fuel →
     ∃ l, experiments fuel st sequence = Returns l ∧ l = es ∧ length l = length es) ∧
  (∀ fuel, length ps < fuel →
     ∃ l, Participant_participants fuel st participant = Returns l ∧
          l = ps ∧ length l = length ps).
Proof.
  intros Hes Hps. split; intros fuel Hfuel.
  - exists es. split; [|done]. unfold experiments.
    by rewrite (walk_complete _ _ _ Hes).
  - exists ps. split; [|done]. unfold Participant_participants.
    by rewrite (walk_complete _ _ _ Hps).
Qed.

Lemma traversals_return_the_chain_witness :
  experiments 3 sequence_examples.linked_store sequence_examples.chained_sequence
    = Returns [0; 1] ∧
  Participant_participants 3 sequence_examples.linked_store sequence_examples.participant_4
    = Returns [1; 3].
Proof.
  destruct (traversals_return_the_chain sequence_examples.linked_store
              sequence_examples.chained_sequence sequence_examples.participant_4
              [0; 1] [1; 3]) as [Hes Hps].
  - repeat constructor.
  - repeat constructor.
  - destruct (Hes 3) as (l & Hl & -> & _); [simpl; lia|].
    destruct (Hps 3) as (l & Hl' & -> & _); [simpl; lia|].
    split; assumption.
Defined.

End traversal.

(** ** Loops *)

(** The invariant rule for [for_each]: an invariant over the elements
    already processed, established by the body at every position, holds of
    the whole list when the loop returns, and the loop returns. *)
Lemma for_each_invariant {A S} (I : list A → S → Prop)
    (body : A → S → outcome S) (xs : list A) (s : S) :
  I [] s →
  (∀ done x rest s, xs = done ++ x :: rest → I done s →
     ∃ s', body x s = Returns s' ∧ I (done ++ [x]) s') →
  ∃ s', for_each xs body s = Returns s' ∧ I xs s'.
Proof.
  intros Hinit Hbody.
  assert (∀ rest done s, xs = done ++ rest → I done s →
            ∃ s', for_each rest body s = Returns s' ∧ I xs s') as Hgen.
  { induction rest as [|x rest IH]; intros done s0 Hxs Hdone.
    - rewrite app_nil_r in Hxs. subst. simpl. eauto.
    - destruct (Hbody done x rest s0 Hxs Hdone) as (s1 & Hs1 & Hinv).
      simpl. rewrite Hs1. simpl. apply (IH (done ++ [x])); [|done].
      by rewrite <- app_assoc. }
  by apply (Hgen xs []).
Qed.

Lemma getitem_Some {A} (xs : list A) (i : nat) (x : A) :
  xs !! i = Some x → getitem xs i = Returns x.
Proof. unfold getitem. by intros ->. Qed.

Lemma range_split (n : nat) (done rest : list nat) (i : nat) :
  range n = done ++ i :: rest → i < n ∧ done = range i.
Proof.
  unfold range. intros Hsplit.
  assert (length done < n) as Hlen.
  { apply (f_equal length) in Hsplit.
    rewrite length_seq, length_app in Hsplit. simpl in Hsplit. lia. }
  assert (i = length done) as ->.
  { assert (seq 0 n !! length done = Some i) as Hi
      by (rewrite Hsplit; apply list_lookup_middle; done).
    apply lookup_seq in Hi. lia. }
  split; [done|].
  apply (f_equal (take (length done))) in Hsplit.
  rewrite take_app_length, take_seq in Hsplit.
  by rewrite Nat.min_l in Hsplit by lia.
Qed.

Lemma elem_of_range (n i : nat) : i ∈ range n ↔ i < n.
Proof. unfold range. rewrite elem_of_seq. lia. Qed.

Lemma range_snoc (n : nat) : range n ++ [n] = range (S n).
Proof. unfold range. by rewrite seq_S. Qed.

(** ** Chain construction *)

Section chain_construction.
Import sequence_of_experiments.

Lemma next_experiment_of_set_next (e : nat) (target : option nat) (st : Store) (x : nat) :
  next_experiment_of (set_next_experiment e target st) x
  = if decide (e = x) then target else next_experiment_of st x.
Proof.
  unfold next_experiment_of, set_next_experiment; simpl.
  unfold insert, fn_insert. by destruct (decide (e = x)).
Qed.

Lemma next_experiment_of_set_previous (e : nat) (target : option nat) (st : Store) (x : nat) :
  next_experiment_of (set_previous_experiment e target st) x = next_experiment_of st x.
Proof.
  unfold next_experiment_of, set_previous_experiment; simpl.
  unfold insert, fn_insert. by destruct (decide (e = x)) as [->|].
Qed.

Lemma next_experiment_of_set_sequence (e : nat) (target : option nat) (st : Store) (x : nat) :
  next_experiment_of (set_sequence_of_experiments e target st) x = next_experiment_of st x.
Proof.
  unfold next_experiment_of, set_sequence_of_experiments; simpl.
  unfold insert, fn_insert. by destruct (decide (e = x)) as [->|].
Qed.

(** The first loop of [add_experiments] points every experiment of the
    list but the last to its successor, and leaves the [next_experiment] of
    all other experiments as it was. *)
Lemma add_experiments_wiring (exps : list nat) (st : Store) :
  NoDup exps →
  ∃ st',
    for_each (range (length exps - 1)) (λ i st,
      right ← getitem exps (i + 1);
      left ← getitem exps i;
      left' ← getitem exps i;
      right' ← getitem exps (i + 1);
      Returns (set_previous_experiment right' (Some left')
                 (set_next_experiment left (Some right) st))) st = Returns st' ∧
    (∀ j el er, j < length exps - 1 → exps !! j = Some el → exps !! S j = Some er →
       next_experiment_of st' el = Some er) ∧
    (∀ x, (∀ j, j < length exps - 1 → exps !! j ≠ Some x) →
       next_experiment_of st' x = next_experiment_of st x).
Proof.
  intros Hnodup.
  pose (I := λ (done : list nat) (s : Store),
    (∀ j el er, j ∈ done → exps !! j = Some el → exps !! S j = Some er →
       next_experiment_of s el = Some er) ∧
    (∀ x, (∀ j, j ∈ done → exps !! j ≠ Some x) →
       next_experiment_of s x = next_experiment_of st x)).
  destruct (for_each_invariant I
    (λ i st,
      right ← getitem exps (i + 1);
      left ← getitem exps i;
      left' ← getitem exps i;
      right' ← getitem exps (i + 1);
      Returns (set_previous_experiment right' (Some left')
                 (set_next_experiment left (Some right) st)))
    (range (length exps - 1)) st) as (st' & Hloop & Hlinked & Hframe).
  - split; [|done]. intros j el er Hj. by apply elem_of_nil in Hj.
  - intros done i rest s Hsplit [Hlinked Hframe].
    apply range_split in Hsplit as [Hi ->].
    destruct (lookup_lt_is_Some_2 exps i) as [el Hel]; [lia|].
    destruct (lookup_lt_is_Some_2 exps (S i)) as [er Her]; [lia|].
    replace (i + 1) with (S i) by lia.
    rewrite (getitem_Some _ _ _ Hel), (getitem_Some _ _ _ Her). simpl.
    eexists; split; [reflexivity|]. rewrite range_snoc. split.
    + intros j el' er' Hj Hel' Her'.
      rewrite next_experiment_of_set_previous, next_experiment_of_set_next.
      destruct (decide (el = el')) as [<-|Hne].
      * assert (i = j) as <- by (eapply NoDup_lookup; eauto). congruence.
      * apply (Hlinked j); [|done..]. apply elem_of_range in Hj. apply elem_of_range.
        destruct (decide (j = i)) as [->|]; [congruence|lia].
    + intros x Hx.
      rewrite next_experiment_of_set_previous, next_experiment_of_set_next.
      rewrite decide_False.
      * apply Hframe. intros j Hj. apply Hx. apply elem_of_range in Hj.
        apply elem_of_range. lia.
      * intros <-. apply (Hx i); [apply elem_of_range; lia|done].
  - exists st'. split; [done|]. split.
    + intros j el er Hj. apply (Hlinked j). by apply elem_of_range.
    + intros x Hx. apply Hframe. intros j Hj. apply Hx. by apply elem_of_range in Hj.
Qed.

(** The second loop of [add_experiments] changes no [next_experiment]. *)
Lemma add_experiments_saving (self : SequenceOfExperiments.t) (exps : list nat) (st : Store) :
  ∃ st',
    for_each exps (λ experiment st,
      Returns (save (ExperimentRow experiment)
                 (set_sequence_of_experiments experiment
                    (Some (SequenceOfExperiments.id self)) st))) st = Returns st' ∧
    ∀ x, next_experiment_of st' x = next_experiment_of st x.
Proof.
  apply (for_each_invariant
           (λ _ s, ∀ x, next_experiment_of s x = next_experiment_of st x)); [done|].
  intros done e rest s _ Hs. eexists; split; [reflexivity|].
  intros x. rewrite <- Hs. apply next_experiment_of_set_sequence.
Qed.

(** C3 (amended): for a non-empty list of pairwise distinct experiments
    whose [next_experiment] pointers are null, [add_experiments] returns,
    and afterwards [experiments()] returns, with any fuel above the length
    of the list, exactly the list that was passed. *)
Theorem experiments_after_add_experiments (self : SequenceOfExperiments.t)
    (exps : list nat) (st : Store) :
  exps ≠ [] →
  NoDup exps →
  (∀ e, e ∈ exps → next_experiment_of st e = None) →
  ∃ self' st',
    add_experiments self exps st = Returns (self', st') ∧
    ∀ fuel, length exps < fuel →
      ∃ l, experiments fuel st' self' = Returns l ∧ l = exps ∧ length l = length exps.
Proof.
  intros Hne Hnodup Hnull.
  destruct exps as [|first rest] eqn:Hexps; [done|]. rewrite <- Hexps in *.
  assert (exps !! 0 = Some first) as Hfirst by (by rewrite Hexps).
  destruct (add_experiments_wiring exps st Hnodup) as (st1 & Hloop1 & Hlinked & Hframe).
  destruct (add_experiments_saving (set_first_experiment (Some first) self) exps st1)
    as (st2 & Hloop2 & Hsame).
  unfold add_experiments. rewrite (getitem_Some _ _ _ Hfirst), bind_Returns.
  cbv beta zeta. rewrite Hloop1, bind_Returns. cbv beta.
  rewrite Hloop2, bind_Returns. cbv beta.
  eexists _, _. split; [reflexivity|]. intros fuel Hfuel.
  exists exps. split; [|done]. unfold experiments. simpl.
  rewrite <- Hfirst. apply (walk_complete _ _ _) with (lst := []); [|done].
  apply chain_of_lookup. intros i x Hx.
  unfold next_experiment_of at 1; simpl. fold (next_experiment_of st2 x).
  rewrite Hsame.
  assert (i < length exps) as Hi by (by apply lookup_lt_is_Some_1; eauto).
  destruct (decide (i < length exps - 1)) as [Hlt|Hge].
  - destruct (lookup_lt_is_Some_2 exps (S i)) as [y Hy]; [lia|].
    rewrite Hy. by apply (Hlinked i).
  - rewrite (lookup_ge_None_2 exps (S i)) by lia.
    rewrite Hframe; [apply Hnull; by eapply list_elem_of_lookup_2|].
    intros j Hj Hjx. assert (j = i) by (eapply NoDup_lookup; eauto). lia.
Qed.

Lemma experiments_after_add_experiments_witness :
  ∃ self' st',
    add_experiments sequence_examples.sequence_7 [0; 1] sequence_examples.blank_store
      = Returns (self', st') ∧
    experiments 3 st' self' = Returns [0; 1].
Proof.
  destruct (experiments_after_add_experiments sequence_examples.sequence_7 [0; 1]
              sequence_examples.blank_store) as (self' & st' & Hadd & Hexps).
  - done.
  - by apply (bool_decide_unpack _).
  - intros e _. reflexivity.
  - exists self', st'. split; [exact Hadd|].
    destruct (Hexps 3) as (l & Hl & -> & _); [simpl; lia|exact Hl].
Defined.

(** C3 (as stated) fails on a list that holds the same experiment twice:
    [add_experiments] makes the experiment its own successor, and
    [experiments()] then never returns, whatever the fuel. *)
Lemma add_experiments_duplicate_counterexample :
  [0; 0] ≠ [] ∧
  (∀ e, e ∈ [0; 0] → next_experiment_of sequence_examples.blank_store e = None) ∧
  match add_experiments sequence_examples.sequence_7 [0; 0] sequence_examples.blank_store with
  | Returns (self', st') => ∀ fuel, experiments fuel st' self' = Unfinished
  | _ => False
  end.
Proof.
  split; [done|]. split; [intros e _; reflexivity|].
  assert (∃ st', add_experiments sequence_examples.sequence_7 [0; 0]
                   sequence_examples.blank_store
                 = Returns (set_first_experiment (Some 0) sequence_examples.sequence_7, st')
                 ∧ next_experiment_of st' 0 = Some 0) as (st' & -> & Hloop).
  { eexists. split; reflexivity. }
  intros fuel. unfold experiments. simpl. by apply walk_self_loop.
Qed.

End chain_construction.

(** ** Linking the participants of adjacent experiments *)

Section participant_rows.
Import sequence_of_experiments.

Lemma rows_of_experiment_lookup (rows : list ParticipantInExperiment.t) :
  ∀ n e i pk r,
    rows_of_experiment n rows e !! i = Some (pk, r) →
    ∃ j, pk = n + j ∧ rows !! j = Some r ∧ ParticipantInExperiment.experiment r = e.
Proof.
  induction rows as [|r0 rows IH]; intros n e i pk r Hi; [done|].
  simpl in Hi. destruct (decide (ParticipantInExperiment.experiment r0 = e)) as [He|He].
  - destruct i as [|i]; simpl in Hi.
    + injection Hi as <- <-. exists 0. split; [lia|done].
    + destruct (IH _ _ _ _ _ Hi) as (j & -> & Hj & Hr).
      exists (S j). split; [lia|done].
  - destruct (IH _ _ _ _ _ Hi) as (j & -> & Hj & Hr).
    exists (S j). split; [lia|done].
Qed.

(** A participant listed for an experiment is a row of that experiment. *)
Lemma participants_fetch (rows : list ParticipantInExperiment.t) (e i pk : nat)
    (r : ParticipantInExperiment.t) :
  rows_of_experiment 0 rows e !! i = Some (pk, r) →
  rows !! pk = Some r ∧ ParticipantInExperiment.experiment r = e.
Proof.
  intros (j & -> & Hj & Hr)%rows_of_experiment_lookup. done.
Qed.

Lemma participant_pks_fetch (rows : list ParticipantInExperiment.t) (e i pk : nat) :
  participant_pks rows e !! i = Some pk →
  ∃ r, rows_of_experiment 0 rows e !! i = Some (pk, r) ∧
       rows !! pk = Some r ∧ ParticipantInExperiment.experiment r = e.
Proof.
  unfold participant_pks. intros ([pk' r] & Hpk & Hi)%list_lookup_fmap_Some.
  simpl in Hpk. subst pk'. exists r. split; [done|]. by eapply participants_fetch.
Qed.

(** No row is listed twice for an experiment. *)
Lemma rows_of_experiment_NoDup (rows : list ParticipantInExperiment.t) :
  ∀ n e, NoDup (rows_of_experiment n rows e).*1.
Proof.
  induction rows as [|r0 rows IH]; intros n e; simpl; [constructor|].
  destruct (decide (ParticipantInExperiment.experiment r0 = e)); [|apply IH].
  simpl. constructor; [|apply IH].
  intros ([pk r] & Hpk & Hin)%list_elem_of_fmap. simpl in Hpk. subst pk.
  apply list_elem_of_lookup_1 in Hin as [i Hi].
  apply rows_of_experiment_lookup in Hi as (j & Hj & _). lia.
Qed.

(** Who is listed depends on the [experiment] column only. *)
Lemma rows_of_experiment_column (rows : list ParticipantInExperiment.t) :
  ∀ rows' n e,
    ParticipantInExperiment.experiment <$> rows
      = ParticipantInExperiment.experiment <$> rows' →
    (rows_of_experiment n rows e).*1 = (rows_of_experiment n rows' e).*1.
Proof.
  induction rows as [|r0 rows IH]; intros [|r0' rows'] n e Hcol; try done.
  simpl in Hcol. injection Hcol as Hr0 Hcol. simpl. rewrite Hr0.
  destruct (decide (ParticipantInExperiment.experiment r0' = e)); simpl;
    [f_equal|]; by apply IH.
Qed.

(** A row belongs to one experiment, and is listed at one position. *)
Lemma participant_pks_inj (rows : list ParticipantInExperiment.t) (e e' i i' pk : nat) :
  participant_pks rows e !! i = Some pk →
  participant_pks rows e' !! i' = Some pk →
  e = e' ∧ i = i'.
Proof.
  intros Hi Hi'.
  destruct (participant_pks_fetch _ _ _ _ Hi) as (r & _ & Hr & He).
  destruct (participant_pks_fetch _ _ _ _ Hi') as (r' & _ & Hr' & He').
  assert (e = e') as <- by congruence. split; [done|].
  eapply NoDup_lookup; [apply rows_of_experiment_NoDup|exact Hi|exact Hi'].
Qed.

(** The effect of the two [save()] calls of one iteration on the table. *)
Lemma save_pair_effect (rows : list ParticipantInExperiment.t) (l r : nat)
    (rl rr : ParticipantInExperiment.t) :
  l ≠ r → rows !! l = Some rl → rows !! r = Some rr →
  let rows' :=
    <[r := (set_me_in_previous_experiment (Some l) (r, rr)).2]>
      (<[l := (set_me_in_next_experiment (Some r) (l, rl)).2]> rows) in
  ParticipantInExperiment.experiment <$> rows'
    = ParticipantInExperiment.experiment <$> rows ∧
  (∀ x, stored_next rows' x = if decide (x = l) then Some r else stored_next rows x) ∧
  (∀ x, stored_previous rows' x
        = if decide (x = r) then Some l else stored_previous rows x).
Proof.
  intros Hne Hl Hr rows'. subst rows'. simpl.
  assert (l < length rows) as Hll by (by eapply lookup_lt_Some).
  assert (r < length rows) as Hlr by (by eapply lookup_lt_Some).
  split; [|split].
  - rewrite !list_fmap_insert. simpl.
    rewrite (list_insert_id _ l) by (by rewrite list_lookup_fmap, Hl).
    by rewrite list_insert_id by (by rewrite list_lookup_fmap, Hr).
  - intros x. unfold stored_next.
    destruct (decide (x = l)) as [->|Hxl].
    + rewrite list_lookup_insert_ne by done.
      by rewrite list_lookup_insert_eq by done.
    + destruct (decide (x = r)) as [->|Hxr].
      * rewrite list_lookup_insert_eq by (by rewrite length_insert).
        by rewrite Hr.
      * by rewrite !list_lookup_insert_ne by done.
  - intros x. unfold stored_previous.
    destruct (decide (x = r)) as [->|Hxr].
    + by rewrite list_lookup_insert_eq by (by rewrite length_insert).
    + rewrite list_lookup_insert_ne by done.
      destruct (decide (x = l)) as [->|Hxl].
      * rewrite list_lookup_insert_eq by done. by rewrite Hl.
      * by rewrite list_lookup_insert_ne by done.
Qed.

End participant_rows.

Section connecting.
Import sequence_of_experiments.

Variable es : list nat.
Variable rows0 : list ParticipantInExperiment.t.
Hypothesis es_NoDup : NoDup es.

(** Linking the pair at [(k, i)] keeps every pair linked that was linked
    before. *)
Lemma linked_preserved (rows rows' : list ParticipantInExperiment.t)
    (k i el er l r : nat) :
  es !! k = Some el → es !! S k = Some er →
  participant_pks rows0 el !! i = Some l →
  participant_pks rows0 er !! i = Some r →
  (∀ x, stored_next rows' x = if decide (x = l) then Some r else stored_next rows x) →
  (∀ x, stored_previous rows' x
        = if decide (x = r) then Some l else stored_previous rows x) →
  linked es rows0 rows' k i ∧
  ∀ k' i', linked es rows0 rows k' i' → linked es rows0 rows' k' i'.
Proof using es_NoDup.
  intros Hel Her Hl Hr Hnext Hprev. split.
  - exists el, er, l, r. rewrite Hnext, Hprev, !decide_True by done. done.
  - intros k' i' (el' & er' & l' & r' & Hel' & Her' & Hl' & Hr' & Hn & Hp).
    exists el', er', l', r'. repeat (split; [done|]). split.
    + rewrite Hnext. destruct (decide (l' = l)) as [->|]; [|done].
      destruct (participant_pks_inj _ _ _ _ _ _ Hl Hl') as [<- <-].
      assert (k = k') as <- by (eapply NoDup_lookup; eauto). congruence.
    + rewrite Hprev. destruct (decide (r' = r)) as [->|]; [|done].
      destruct (participant_pks_inj _ _ _ _ _ _ Hr Hr') as [<- <-].
      assert (S k = S k') as [= <-] by (eapply NoDup_lookup; eauto). congruence.
Qed.

(** The inner loop links the first [num] participants of two adjacent
    experiments, and keeps what was linked. *)
Lemma connect_participants_loop (num k el er : nat) (D : nat → nat → Prop) (st : Store) :
  es !! k = Some el → es !! S k = Some er →
  num ≤ length (participant_pks rows0 el) →
  num ≤ length (participant_pks rows0 er) →
  ParticipantInExperiment.experiment <$> participants_in_experiments st
    = ParticipantInExperiment.experiment <$> rows0 →
  (∀ k' i', D k' i' → linked es rows0 (participants_in_experiments st) k' i') →
  ∃ st',
    for_each (range num) (connect_participants el er) st = Returns st' ∧
    ParticipantInExperiment.experiment <$> participants_in_experiments st'
      = ParticipantInExperiment.experiment <$> rows0 ∧
    experiment_objects st' = experiment_objects st ∧
    (∀ k' i', D k' i' → linked es rows0 (participants_in_experiments st') k' i') ∧
    (∀ i, i < num → linked es rows0 (participants_in_experiments st') k i).
Proof using es_NoDup.
  intros Hel Her Hnl Hnr Hcol HD.
  pose (I := λ (done : list nat) (s : Store),
    ParticipantInExperiment.experiment <$> participants_in_experiments s
      = ParticipantInExperiment.experiment <$> rows0 ∧
    experiment_objects s = experiment_objects st ∧
    (∀ k' i', D k' i' → linked es rows0 (participants_in_experiments s) k' i') ∧
    (∀ i, i ∈ done → linked es rows0 (participants_in_experiments s) k i)).
  destruct (for_each_invariant I (connect_participants el er) (range num) st)
    as (st' & Hloop & Hcol' & Hobj & HD' & Hk).
  - repeat (split; [done|]). intros i Hi. by apply elem_of_nil in Hi.
  - intros done i rest s Hsplit (Hcols & Hobjs & HDs & Hdone).
    apply range_split in Hsplit as [Hi ->].
    destruct (lookup_lt_is_Some_2 (participant_pks rows0 el) i) as [l Hl]; [lia|].
    destruct (lookup_lt_is_Some_2 (participant_pks rows0 er) i) as [r Hr]; [lia|].
    assert (participant_pks (participants_in_experiments s) el !! i = Some l) as Hl'.
    { unfold participant_pks. by rewrite (rows_of_experiment_column _ rows0). }
    assert (participant_pks (participants_in_experiments s) er !! i = Some r) as Hr'.
    { unfold participant_pks. by rewrite (rows_of_experiment_column _ rows0). }
    apply participant_pks_fetch in Hl' as (rl & Hql & Hrl & _).
    apply participant_pks_fetch in Hr' as (rr & Hqr & Hrr & _).
    assert (l ≠ r) as Hne.
    { intros <-. destruct (participant_pks_inj _ _ _ _ _ _ Hl Hr) as [<- _].
      assert (k = S k) by (eapply NoDup_lookup; eauto). lia. }
    unfold connect_participants, Experiment_participants.
    rewrite (getitem_Some _ _ _ Hql), bind_Returns.
    rewrite (getitem_Some _ _ _ Hqr), bind_Returns. cbv zeta.
    eexists; split; [reflexivity|].
    destruct (save_pair_effect _ _ _ _ _ Hne Hrl Hrr) as (Hcolumn & Hnext & Hprev).
    destruct (linked_preserved (participants_in_experiments s) _ k i el er l r
                Hel Her Hl Hr Hnext Hprev) as [Hnew Hold].
    split; [by rewrite <- Hcols|]. split; [done|]. split.
    + intros k' i' Hki. apply Hold. by apply HDs.
    + intros i' [Hi'| ->%list_elem_of_singleton]%elem_of_app; [|exact Hnew].
      apply Hold. by apply Hdone.
  - exists st'. repeat (split; [done|]). intros i Hi. apply Hk. by apply elem_of_range.
Qed.

(** The outer loop links the first [num] participants of all adjacent
    experiments of the chain. *)
Lemma connect_experiments_loop (num : nat) (st : Store) :
  (∀ e, e ∈ es → num ≤ length (participant_pks rows0 e)) →
  participants_in_experiments st = rows0 →
  ∃ st',
    for_each (range (length es - 1)) (connect_experiments num es) st = Returns st' ∧
    ParticipantInExperiment.experiment <$> participants_in_experiments st'
      = ParticipantInExperiment.experiment <$> rows0 ∧
    experiment_objects st' = experiment_objects st ∧
    (∀ k i, k < length es - 1 → i < num →
       linked es rows0 (participants_in_experiments st') k i).
Proof using es_NoDup.
  intros Hlen Hrows.
  pose (I := λ (done : list nat) (s : Store),
    ParticipantInExperiment.experiment <$> participants_in_experiments s
      = ParticipantInExperiment.experiment <$> rows0 ∧
    experiment_objects s = experiment_objects st ∧
    (∀ k i, k ∈ done ∧ i < num → linked es rows0 (participants_in_experiments s) k i)).
  destruct (for_each_invariant I (connect_experiments num es) (range (length es - 1)) st)
    as (st' & Hloop & Hcol' & Hobj & Hlinked).
  - split; [by rewrite Hrows|]. split; [done|].
    intros k i [Hk _]. by apply elem_of_nil in Hk.
  - intros done k rest s Hsplit (Hcols & Hobjs & Hdone).
    apply range_split in Hsplit as [Hk ->].
    destruct (lookup_lt_is_Some_2 es k) as [el Hel]; [lia|].
    destruct (lookup_lt_is_Some_2 es (S k)) as [er Her]; [lia|].
    unfold connect_experiments. replace (k + 1) with (S k) by lia.
    rewrite (getitem_Some _ _ _ Hel), bind_Returns.
    rewrite (getitem_Some _ _ _ Her), bind_Returns.
    destruct (connect_participants_loop num k el er
                (λ k' i', k' ∈ range k ∧ i' < num) s Hel Her)
      as (s' & Hinner & Hcols' & Hobjs' & Hkept & Hnew); try done.
    { apply Hlen. by eapply list_elem_of_lookup_2. }
    { apply Hlen. by eapply list_elem_of_lookup_2. }
    exists s'. split; [done|]. split; [done|]. split; [congruence|].
    intros k' i [[Hk'| ->%list_elem_of_singleton]%elem_of_app Hi]; [|by apply Hnew].
    by apply Hkept.
  - exists st'. repeat (split; [done|]). intros k i Hk Hi. apply Hlinked.
    split; [by apply elem_of_range|done].
Qed.

End connecting.

Section connected.
Import sequence_of_experiments.

(** C4: when [experiments()] returns the chain [es] and every experiment of
    the chain has as many participants as the sequence,
    [connect_participants_between_experiments] returns, and afterwards, for
    every adjacent pair of experiments [k], [k + 1] of the chain and every
    participant index [i], participant [i] of experiment [k] has
    [me_in_next_experiment] equal to participant [i] of experiment [k + 1],
    which has [me_in_previous_experiment] equal to participant [i] of
    experiment [k]. The chain and the participant lists are those of
    before the call. *)
Theorem participants_connected (fuel : nat) (self : SequenceOfExperiments.t)
    (st : Store) (es : list nat) :
  experiments fuel st self = Returns es →
  (∀ e, e ∈ es →
     length (Experiment_participants st e) = length (participants st self)) →
  ∃ st',
    connect_participants_between_experiments fuel self st = Returns st' ∧
    experiments fuel st' self = Returns es ∧
    (∀ e, (Experiment_participants st' e).*1 = (Experiment_participants st e).*1) ∧
    ∀ k i el er,
      es !! k = Some el → es !! S k = Some er → i < length (participants st self) →
      ∃ pl pr,
        Experiment_participants st' el !! i = Some pl ∧
        Experiment_participants st' er !! i = Some pr ∧
        ParticipantInExperiment.me_in_next_experiment pl.2 = Some pr.1 ∧
        ParticipantInExperiment.me_in_previous_experiment pr.2 = Some pl.1.
Proof.
  intros Hes Hlen.
  destruct (experiments_sound _ _ _ _ Hes) as [_ Hnodup].
  destruct (connect_experiments_loop es (participants_in_experiments st) Hnodup
              (length (participants st self)) st)
    as (st' & Hloop & Hcol & Hobj & Hlinked); [|done|].
  { intros e He. unfold participant_pks. rewrite length_fmap.
    fold (Experiment_participants st e). by rewrite Hlen. }
  exists st'. unfold connect_participants_between_experiments.
  rewrite Hes, bind_Returns. split; [exact Hloop|]. split; [|split].
  - unfold experiments, next_experiment_of in *. by rewrite Hobj.
  - intros e. unfold Experiment_participants. by apply rows_of_experiment_column.
  - intros k i el er Hel Her Hi.
    assert (k < length es - 1) as Hk.
    { apply lookup_lt_Some in Her. lia. }
    destruct (Hlinked k i Hk Hi)
      as (el' & er' & l & r & Hel' & Her' & Hl & Hr & Hnext & Hprev).
    assert (el' = el) as -> by congruence. assert (er' = er) as -> by congruence.
    assert (participant_pks (participants_in_experiments st') el !! i = Some l) as Hl'.
    { unfold participant_pks.
      by rewrite (rows_of_experiment_column _ (participants_in_experiments st)). }
    assert (participant_pks (participants_in_experiments st') er !! i = Some r) as Hr'.
    { unfold participant_pks.
      by rewrite (rows_of_experiment_column _ (participants_in_experiments st)). }
    apply participant_pks_fetch in Hl' as (rl & Hql & Hrl & _).
    apply participant_pks_fetch in Hr' as (rr & Hqr & Hrr & _).
    exists (l, rl), (r, rr). split; [exact Hql|]. split; [exact Hqr|]. simpl.
    unfold stored_next in Hnext. unfold stored_previous in Hprev.
    rewrite Hrl in Hnext. rewrite Hrr in Hprev. done.
Qed.

Lemma participants_connected_witness :
  ∃ st',
    connect_participants_between_experiments 3 sequence_examples.chained_sequence
      sequence_examples.chained_store = Returns st' ∧
    ∃ pl pr,
      Experiment_participants st' 0 !! 1 = Some pl ∧
      Experiment_participants st' 1 !! 1 = Some pr ∧
      ParticipantInExperiment.me_in_next_experiment pl.2 = Some pr.1 ∧
      ParticipantInExperiment.me_in_previous_experiment pr.2 = Some pl.1.
Proof.
  destruct (participants_connected 3 sequence_examples.chained_sequence
              sequence_examples.chained_store [0; 1])
    as (st' & Hconnect & _ & _ & Hlinked).
  - reflexivity.
  - intros e [->|[->|[]%elem_of_nil]%elem_of_cons]%elem_of_cons; reflexivity.
  - exists st'. split; [exact Hconnect|].
    apply (Hlinked 0 1 0 1); [reflexivity|reflexivity|].
    vm_compute. lia.
Defined.

End connected.

(** ** More on the match assignment query *)

Section match_assignment_outcomes.
Import matches.

(** X1: Whatever the classes of the stored matches, a match that
    [next_open_match] returns is a stored match that is open for the
    request, and no stored match before it is open. *)
Theorem next_open_match_returns_open (treatment_code : string) (request : Request)
    (ms : list BaseMatch) (m : BaseMatch) :
  next_open_match treatment_code request ms = Returns m →
  ∃ stored pre post,
    session request !! treatment_code = Some stored ∧
    ms = pre ++ m :: post ∧ open_for stored m ∧
    ∀ m', m' ∈ pre → ¬ open_for stored m'.
Proof.
  induction ms as [|m0 ms IH]; [done|]. simpl. unfold getattr_treatment.
  destruct (treatment m0) as [t0|] eqn:Ht0; [|done]. rewrite bind_Returns.
  destruct (session request !! treatment_code) as [stored|] eqn:Hstored; [|done].
  assert (next_open_match treatment_code request ms = Returns m →
          ¬ open_for stored m0 →
          ∃ stored' pre post,
            Some stored = Some stored' ∧ m0 :: ms = pre ++ m :: post ∧
            open_for stored' m ∧ ∀ m', m' ∈ pre → ¬ open_for stored' m') as Hrest.
  { intros Hms Hclosed.
    destruct (IH Hms) as (stored' & pre & post & [= <-] & -> & Hopen & Hpre).
    exists stored, (m0 :: pre), post. repeat (split; [done|]).
    intros m' [->|Hm']%elem_of_cons; auto. }
  destruct (decide (Treatment.code t0 = stored)) as [Hcode|Hcode].
  - destruct (is_ready_for_next_participant m0) as [v| |] eqn:Hready; [|done..].
    rewrite bind_Returns. destruct (truthy v) eqn:Hv.
    + intros [= <-]. exists stored, [], ms. split; [done|]. split; [done|].
      split; [split; eauto|]. intros m' Hm'. by apply elem_of_nil in Hm'.
    + intros Hms. apply Hrest; [done|].
      intros [_ (w & Hw & Hw')]. congruence.
  - intros Hms. apply Hrest; [done|].
    intros [(t & Ht & Hcode') _]. congruence.
Qed.

Lemma next_open_match_returns_open_witness :
  ∃ stored pre post,
    session examples.request_T !! "treatment_code" = Some stored ∧
    [examples.waiting_match] = pre ++ examples.waiting_match :: post ∧
    open_for stored examples.waiting_match ∧
    ∀ m', m' ∈ pre → ¬ open_for stored m'.
Proof.
  apply (next_open_match_returns_open "treatment_code" examples.request_T
           [examples.waiting_match] examples.waiting_match).
  vm_compute. reflexivity.
Defined.

(** X3: Stored matches of other treatments play no part: when every
    stored match has a treatment, the query gives the same outcome on the
    stored matches that carry the session's code. The
    [is_ready_for_next_participant] of the others is not called, even
    where it would raise. *)
Theorem next_open_match_ignores_other_treatments (treatment_code : string)
    (request : Request) (stored : string) (ms : list BaseMatch) :
  session request !! treatment_code = Some stored →
  (∀ m, m ∈ ms → is_Some (treatment m)) →
  next_open_match treatment_code request ms
  = next_open_match treatment_code request
      (filter (λ m, Treatment.code <$> treatment m = Some stored) ms).
Proof.
  intros Hstored. induction ms as [|m ms IH]; intros Hms; [done|].
  destruct (Hms m) as [t Ht]; [by left|].
  assert (next_open_match treatment_code request ms
          = next_open_match treatment_code request
              (filter (λ m, Treatment.code <$> treatment m = Some stored) ms)) as IH'.
  { apply IH. intros m' Hm'. apply Hms. by right. }
  rewrite filter_cons. simpl. unfold getattr_treatment.
  rewrite Ht, bind_Returns, Hstored. simpl.
  destruct (decide (Treatment.code t = stored)) as [Hcode|Hcode].
  - rewrite decide_True by (by rewrite Hcode). simpl.
    unfold getattr_treatment. rewrite Ht, bind_Returns, Hstored.
    rewrite decide_True by done.
    destruct (is_ready_for_next_participant m) as [v| |]; [|done..].
    rewrite !bind_Returns. by destruct (truthy v).
  - rewrite decide_False by (intros [= ?]; done). done.
Qed.

Lemma next_open_match_ignores_other_treatments_witness :
  is_ready_for_next_participant examples.other_treatment_match = Raises DoesNotExist ∧
  next_open_match "treatment_code" examples.request_T
    [examples.other_treatment_match; examples.waiting_match]
  = next_open_match "treatment_code" examples.request_T [examples.waiting_match].
Proof.
  split; [reflexivity|].
  apply (next_open_match_ignores_other_treatments "treatment_code" examples.request_T "T"
           [examples.other_treatment_match; examples.waiting_match]).
  - vm_compute. reflexivity.
  - intros m [->|[->|[]%elem_of_nil]%elem_of_cons]%elem_of_cons; by eexists.
Defined.

(** X5: A match that [is_finished()] reports as finished is full and has a
    participant; a match that is not full gets the boolean [False]. *)
Theorem is_finished_only_if_full (m : BaseMatch) (v : value) :
  is_finished m = Returns v →
  (truthy v = true →
     is_full m = Returns (VBool true) ∧
     ∃ ps, participant_set m = Some ps ∧ ps ≠ []) ∧
  (is_full m = Returns (VBool false) → v = VBool false).
Proof.
  destruct (participant_set m) as [ps|] eqn:Hps; cycle 1.
  { intros Hv. assert (is_finished m = Raises AttributeError) as Hraise
      by (apply is_finished_raises; auto). congruence. }
  destruct (treatment m) as [t|] eqn:Ht; cycle 1.
  { intros Hv. assert (is_finished m = Raises AttributeError) as Hraise
      by (apply is_finished_raises; auto). congruence. }
  rewrite (is_finished_returns _ _ _ Ht Hps), (is_full_returns _ _ _ Ht Hps).
  destruct (_ >=? _)%Z.
  - intros [= <-]. split; [|done]. simpl.
    destruct ps; [done|]. intros _. split; [done|]. by eexists.
  - intros [= <-]. split; done.
Qed.

Lemma is_finished_only_if_full_witness :
  is_full examples.waiting_match = Returns (VBool true) ∧
  ∃ ps, participant_set examples.waiting_match = Some ps ∧ ps ≠ [].
Proof.
  apply (is_finished_only_if_full examples.waiting_match (VList [VBool true]));
    reflexivity.
Defined.

End match_assignment_outcomes.

(** ** More on the traversals *)

Section traversal_outcomes.
Import sequence_of_experiments.

Lemma walk_returns_within_fuel (next : nat → option nat) (fuel : nat) :
  ∀ lst cur r, walk next fuel lst cur = Returns r →
  ∃ l, r = lst ++ l ∧ chain next cur l ∧ length l < fuel.
Proof.
  induction fuel as [|fuel IH]; intros lst cur r Hwalk; [done|].
  simpl in Hwalk. destruct cur as [x|].
  - destruct (IH _ _ _ Hwalk) as (l & -> & Hl & Hfuel).
    exists (x :: l). split; [by rewrite <- app_assoc|].
    split; [by constructor|simpl; lia].
  - injection Hwalk as <-. exists []. split; [by rewrite app_nil_r|].
    split; [constructor|simpl; lia].
Qed.

(** X6: The two traversals return a list exactly when the pointers from the
    head form a chain that ends in the null pointer and is shorter than the
    fuel, and then they return that chain; they raise nothing. On a cycle
    they do not return, whatever the fuel. *)
Theorem traversals_return_only_chains (fuel : nat) (st : Store)
    (sequence : SequenceOfExperiments.t) (participant : Participant.t) :
  (∀ l, experiments fuel st sequence = Returns l ↔
        chain (next_experiment_of st) (SequenceOfExperiments.first_experiment sequence) l ∧
        length l < fuel) ∧
  (∀ l, Participant_participants fuel st participant = Returns l ↔
        chain (me_in_next_experiment_of st)
              (resolve st (Participant.me_in_first_experiment participant)) l ∧
        length l < fuel) ∧
  (∀ e, experiments fuel st sequence ≠ Raises e) ∧
  (∀ e, Participant_participants fuel st participant ≠ Raises e).
Proof.
  split; [|split; [|split]].
  - intros l. split.
    + intros (l' & -> & Hchain & Hfuel)%walk_returns_within_fuel. done.
    + intros [Hchain Hfuel]. unfold experiments.
      by rewrite (walk_complete _ _ _ Hchain).
  - intros l. split.
    + intros (l' & -> & Hchain & Hfuel)%walk_returns_within_fuel. done.
    + intros [Hchain Hfuel]. unfold Participant_participants.
      by rewrite (walk_complete _ _ _ Hchain).
  - intros e. apply walk_never_raises.
  - intros e. apply walk_never_raises.
Qed.

Lemma foldl_total (f : nat → Z) (l : list nat) :
  ∀ a, foldl (λ total x, total + f x)%Z a l = (a + foldr (λ x total, f x + total) 0 l)%Z.
Proof.
  induction l as [|x l IH]; intros a; simpl; [lia|]. rewrite IH. lia.
Qed.

(** X7: [total_pay()] of a participant whose per-experiment participants form
    the chain [ps] is the sum of their [total_pay()] (0 for the empty
    chain). *)
Theorem total_pay_sums_the_chain (total_pay_of : nat → Z) (fuel : nat) (st : Store)
    (self : Participant.t) (ps : list nat) :
  chain (me_in_next_experiment_of st)
        (resolve st (Participant.me_in_first_experiment self)) ps →
  length ps < fuel →
  Participant_total_pay total_pay_of fuel st self
  = Returns (foldr (λ p total, total_pay_of p + total)%Z 0%Z ps).
Proof.
  intros Hchain Hfuel. unfold Participant_total_pay, Participant_participants.
  rewrite (walk_complete _ _ _ Hchain) by done. simpl.
  by rewrite foldl_total.
Qed.

Lemma total_pay_sums_the_chain_witness :
  Participant_total_pay (λ pk, Z.of_nat pk * 10)%Z 3 sequence_examples.linked_store
    sequence_examples.participant_4
  = Returns 40%Z.
Proof.
  apply (total_pay_sums_the_chain (λ pk, Z.of_nat pk * 10)%Z 3
           sequence_examples.linked_store sequence_examples.participant_4 [1; 3]).
  - repeat constructor.
  - simpl. lia.
Defined.

End traversal_outcomes.

(** ** More on the chain construction *)

Section chain_construction_effects.
Import sequence_of_experiments.

#[local] Set Warnings "-notation-for-abbreviation".

Local Notation wiring exps :=
  (λ i st,
      right ← getitem exps (i + 1);
      left ← getitem exps i;
      left' ← getitem exps i;
      right' ← getitem exps (i + 1);
      Returns (set_previous_experiment right' (Some left')
                 (set_next_experiment left (Some right) st))).

Local Notation saving self :=
  (λ experiment st,
      Returns (save (ExperimentRow experiment)
                 (set_sequence_of_experiments experiment
                    (Some (SequenceOfExperiments.id self)) st))).

Lemma previous_experiment_of_set_next (e : nat) (target : option nat) (st : Store) (x : nat) :
  previous_experiment_of (set_next_experiment e target st) x = previous_experiment_of st x.
Proof.
  unfold previous_experiment_of, set_next_experiment; simpl.
  unfold insert, fn_insert. by destruct (decide (e = x)) as [->|].
Qed.

Lemma previous_experiment_of_set_previous (e : nat) (target : option nat) (st : Store)
    (x : nat) :
  previous_experiment_of (set_previous_experiment e target st) x
  = if decide (e = x) then target else previous_experiment_of st x.
Proof.
  unfold previous_experiment_of, set_previous_experiment; simpl.
  unfold insert, fn_insert. by destruct (decide (e = x)).
Qed.

Lemma previous_experiment_of_set_sequence (e : nat) (target : option nat) (st : Store)
    (x : nat) :
  previous_experiment_of (set_sequence_of_experiments e target st) x
  = previous_experiment_of st x.
Proof.
  unfold previous_experiment_of, set_sequence_of_experiments; simpl.
  unfold insert, fn_insert. by destruct (decide (e = x)) as [->|].
Qed.

Lemma sequence_of_set_next (e : nat) (target : option nat) (st : Store) (x : nat) :
  sequence_of (set_next_experiment e target st) x = sequence_of st x.
Proof.
  unfold sequence_of, set_next_experiment; simpl.
  unfold insert, fn_insert. by destruct (decide (e = x)) as [->|].
Qed.

Lemma sequence_of_set_previous (e : nat) (target : option nat) (st : Store) (x : nat) :
  sequence_of (set_previous_experiment e target st) x = sequence_of st x.
Proof.
  unfold sequence_of, set_previous_experiment; simpl.
  unfold insert, fn_insert. by destruct (decide (e = x)) as [->|].
Qed.

Lemma sequence_of_set_sequence (e : nat) (target : option nat) (st : Store) (x : nat) :
  sequence_of (set_sequence_of_experiments e target st) x
  = if decide (e = x) then target else sequence_of st x.
Proof.
  unfold sequence_of, set_sequence_of_experiments; simpl.
  unfold insert, fn_insert. by destruct (decide (e = x)).
Qed.

Lemma experiment_objects_set_next (e : nat) (target : option nat) (st : Store) (x : nat) :
  e ≠ x → experiment_objects (set_next_experiment e target st) x = experiment_objects st x.
Proof. intros Hne. simpl. by apply fn_lookup_insert_ne. Qed.

Lemma experiment_objects_set_previous (e : nat) (target : option nat) (st : Store) (x : nat) :
  e ≠ x → experiment_objects (set_previous_experiment e target st) x = experiment_objects st x.
Proof. intros Hne. simpl. by apply fn_lookup_insert_ne. Qed.

Lemma experiment_objects_set_sequence (e : nat) (target : option nat) (st : Store) (x : nat) :
  e ≠ x →
  experiment_objects (set_sequence_of_experiments e target st) x = experiment_objects st x.
Proof. intros Hne. simpl. by apply fn_lookup_insert_ne. Qed.

(** The first loop returns for every list; it writes to experiments of the
    list only, saves nothing and leaves the back references alone. *)
Lemma add_experiments_wiring_frame (exps : list nat) (st : Store) :
  ∃ st',
    for_each (range (length exps - 1)) (wiring exps) st = Returns st' ∧
    participants_in_experiments st' = participants_in_experiments st ∧
    participant_rows st' = participant_rows st ∧
    saved st' = saved st ∧
    (∀ x, sequence_of st' x = sequence_of st x) ∧
    (∀ x, x ∉ exps → experiment_objects st' x = experiment_objects st x).
Proof.
  apply (for_each_invariant (λ _ s,
    participants_in_experiments s = participants_in_experiments st ∧
    participant_rows s = participant_rows st ∧
    saved s = saved st ∧
    (∀ x, sequence_of s x = sequence_of st x) ∧
    (∀ x, x ∉ exps → experiment_objects s x = experiment_objects st x))); [done|].
  intros done i rest s Hsplit (Hrows & Hprows & Hsaved & Hseq & Hobj).
  apply range_split in Hsplit as [Hi ->].
  destruct (lookup_lt_is_Some_2 exps i) as [el Hel]; [lia|].
  destruct (lookup_lt_is_Some_2 exps (S i)) as [er Her]; [lia|].
  replace (i + 1) with (S i) by lia.
  rewrite (getitem_Some _ _ _ Hel), (getitem_Some _ _ _ Her). simpl.
  eexists; split; [reflexivity|]. repeat (split; [done|]). split.
  - intros x. by rewrite sequence_of_set_previous, sequence_of_set_next.
  - intros x Hx.
    rewrite experiment_objects_set_previous, experiment_objects_set_next; [by apply Hobj|..].
    + intros ->. apply Hx. by eapply list_elem_of_lookup_2.
    + intros ->. apply Hx. by eapply list_elem_of_lookup_2.
Qed.

(** On distinct experiments the first loop points every experiment of the
    list but the first back to its predecessor. *)
Lemma add_experiments_wiring_previous (exps : list nat) (st : Store) :
  NoDup exps →
  ∃ st',
    for_each (range (length exps - 1)) (wiring exps) st = Returns st' ∧
    (∀ j el er, exps !! j = Some el → exps !! S j = Some er →
       previous_experiment_of st' er = Some el) ∧
    (∀ x, (∀ j, j < length exps - 1 → exps !! S j ≠ Some x) →
       previous_experiment_of st' x = previous_experiment_of st x).
Proof.
  intros Hnodup.
  pose (I := λ (done : list nat) (s : Store),
    (∀ j el er, j ∈ done → exps !! j = Some el → exps !! S j = Some er →
       previous_experiment_of s er = Some el) ∧
    (∀ x, (∀ j, j ∈ done → exps !! S j ≠ Some x) →
       previous_experiment_of s x = previous_experiment_of st x)).
  destruct (for_each_invariant I (wiring exps) (range (length exps - 1)) st)
    as (st' & Hloop & Hlinked & Hframe).
  - split; [|done]. intros j el er Hj. by apply elem_of_nil in Hj.
  - intros done i rest s Hsplit [Hlinked Hframe].
    apply range_split in Hsplit as [Hi ->].
    destruct (lookup_lt_is_Some_2 exps i) as [el Hel]; [lia|].
    destruct (lookup_lt_is_Some_2 exps (S i)) as [er Her]; [lia|].
    replace (i + 1) with (S i) by lia.
    rewrite (getitem_Some _ _ _ Hel), (getitem_Some _ _ _ Her). simpl.
    eexists; split; [reflexivity|]. rewrite range_snoc. split.
    + intros j el' er' Hj Hel' Her'.
      rewrite previous_experiment_of_set_previous, previous_experiment_of_set_next.
      destruct (decide (er = er')) as [<-|Hne].
      * assert (S i = S j) as [= <-] by (eapply NoDup_lookup; eauto). congruence.
      * apply (Hlinked j); [|done..]. apply elem_of_range in Hj. apply elem_of_range.
        destruct (decide (j = i)) as [->|]; [congruence|lia].
    + intros x Hx.
      rewrite previous_experiment_of_set_previous, previous_experiment_of_set_next.
      rewrite decide_False.
      * apply Hframe. intros j Hj. apply Hx. apply elem_of_range in Hj.
        apply elem_of_range. lia.
      * intros <-. apply (Hx i); [apply elem_of_range; lia|done].
  - exists st'. split; [done|]. split.
    + intros j el er Hel Her. apply (Hlinked j); [|done..].
      apply elem_of_range. apply lookup_lt_Some in Her. lia.
    + intros x Hx. apply Hframe. intros j Hj. apply Hx. by apply elem_of_range in Hj.
Qed.

(** The second loop sets the back reference of every experiment of the
    list and saves each of them, in order. *)
Lemma add_experiments_saving_effect (self : SequenceOfExperiments.t) (exps : list nat)
    (st : Store) :
  ∃ st',
    for_each exps (saving self) st = Returns st' ∧
    participants_in_experiments st' = participants_in_experiments st ∧
    participant_rows st' = participant_rows st ∧
    saved st' = saved st ++ (ExperimentRow <$> exps) ∧
    (∀ x, previous_experiment_of st' x = previous_experiment_of st x) ∧
    (∀ x, x ∈ exps → sequence_of st' x = Some (SequenceOfExperiments.id self)) ∧
    (∀ x, x ∉ exps → experiment_objects st' x = experiment_objects st x).
Proof.
  apply (for_each_invariant (λ done s,
    participants_in_experiments s = participants_in_experiments st ∧
    participant_rows s = participant_rows st ∧
    saved s = saved st ++ (ExperimentRow <$> done) ∧
    (∀ x, previous_experiment_of s x = previous_experiment_of st x) ∧
    (∀ x, x ∈ done → sequence_of s x = Some (SequenceOfExperiments.id self)) ∧
    (∀ x, x ∉ done → experiment_objects s x = experiment_objects st x))).
  - repeat (split; [by rewrite ?app_nil_r|]). split; [|done].
    intros x Hx. by apply elem_of_nil in Hx.
  - intros done e rest s _ (Hrows & Hprows & Hsaved & Hprev & Hseq & Hobj).
    eexists; split; [reflexivity|]. repeat (split; [done|]). split; [|split; [|split]].
    + simpl. by rewrite Hsaved, fmap_app, <- app_assoc.
    + intros x. rewrite <- Hprev. apply previous_experiment_of_set_sequence.
    + intros x Hx.
      change (sequence_of (set_sequence_of_experiments e
                (Some (SequenceOfExperiments.id self)) s) x
              = Some (SequenceOfExperiments.id self)).
      rewrite sequence_of_set_sequence.
      destruct (decide (e = x)) as [|Hne]; [done|].
      apply Hseq. apply elem_of_app in Hx as [Hx| ->%list_elem_of_singleton]; done.
    + intros x Hx.
      change (experiment_objects (set_sequence_of_experiments e
                (Some (SequenceOfExperiments.id self)) s) x
              = experiment_objects st x).
      rewrite experiment_objects_set_sequence.
      * apply Hobj. intros Hin. apply Hx. apply elem_of_app. by left.
      * intros ->. apply Hx. apply elem_of_app. right. by apply list_elem_of_singleton.
Qed.

Lemma add_experiments_unfold (self : SequenceOfExperiments.t) (exps : list nat)
    (st st1 st2 : Store) (first : nat) :
  exps !! 0 = Some first →
  for_each (range (length exps - 1)) (wiring exps) st = Returns st1 →
  for_each exps (saving (set_first_experiment (Some first) self)) st1 = Returns st2 →
  add_experiments self exps st
  = Returns (set_first_experiment (Some first) self,
             save (SequenceRow (SequenceOfExperiments.id self)) st2).
Proof.
  intros Hfirst Hloop1 Hloop2.
  unfold add_experiments. rewrite (getitem_Some _ _ _ Hfirst), bind_Returns.
  cbv beta zeta. rewrite Hloop1, bind_Returns. cbv beta.
  rewrite Hloop2, bind_Returns. reflexivity.
Qed.

(** What [add_experiments] does to the store, for any non-empty list. *)
Lemma add_experiments_effect (self : SequenceOfExperiments.t) (exps : list nat)
    (st : Store) (first : nat) :
  exps !! 0 = Some first →
  ∃ st',
    add_experiments self exps st = Returns (set_first_experiment (Some first) self, st') ∧
    participants_in_experiments st' = participants_in_experiments st ∧
    participant_rows st' = participant_rows st ∧
    saved st' = saved st ++ (ExperimentRow <$> exps)
                         ++ [SequenceRow (SequenceOfExperiments.id self)] ∧
    (∀ x, x ∈ exps → sequence_of st' x = Some (SequenceOfExperiments.id self)) ∧
    (∀ x, x ∉ exps → experiment_objects st' x = experiment_objects st x).
Proof.
  intros Hfirst.
  destruct (add_experiments_wiring_frame exps st)
    as (st1 & Hloop1 & Hrows1 & Hprows1 & Hsaved1 & _ & Hobj1).
  destruct (add_experiments_saving_effect (set_first_experiment (Some first) self) exps st1)
    as (st2 & Hloop2 & Hrows2 & Hprows2 & Hsaved2 & _ & Hseq2 & Hobj2).
  eexists. split; [by eapply add_experiments_unfold|]. simpl.
  split; [congruence|]. split; [congruence|]. split; [|split].
  - by rewrite Hsaved2, Hsaved1, <- app_assoc.
  - exact Hseq2.
  - intros x Hx. change (experiment_objects st2 x = experiment_objects st x).
    rewrite Hobj2 by done. by apply Hobj1.
Qed.

(** What [add_experiments] does to the chain pointers, for distinct
    experiments. *)
Lemma add_experiments_links (self : SequenceOfExperiments.t) (exps : list nat)
    (st : Store) (first : nat) :
  exps !! 0 = Some first → NoDup exps →
  ∃ st',
    add_experiments self exps st = Returns (set_first_experiment (Some first) self, st') ∧
    (∀ j el er, exps !! j = Some el → exps !! S j = Some er →
       next_experiment_of st' el = Some er ∧ previous_experiment_of st' er = Some el) ∧
    (∀ x, (∀ j, j < length exps - 1 → exps !! j ≠ Some x) →
       next_experiment_of st' x = next_experiment_of st x) ∧
    (∀ x, (∀ j, j < length exps - 1 → exps !! S j ≠ Some x) →
       previous_experiment_of st' x = previous_experiment_of st x).
Proof.
  intros Hfirst Hnodup.
  destruct (add_experiments_wiring exps st Hnodup) as (st1 & Hloop1 & Hnext & Hnext_frame).
  destruct (add_experiments_wiring_previous exps st Hnodup)
    as (st1' & Hloop1' & Hprev & Hprev_frame).
  rewrite Hloop1 in Hloop1'. injection Hloop1' as <-.
  destruct (add_experiments_saving (set_first_experiment (Some first) self) exps st1)
    as (st2 & Hloop2 & Hnext2).
  destruct (add_experiments_saving_effect (set_first_experiment (Some first) self) exps st1)
    as (st2' & Hloop2' & _ & _ & _ & Hprev2 & _).
  rewrite Hloop2 in Hloop2'. injection Hloop2' as <-.
  eexists. split; [by eapply add_experiments_unfold|]. split; [|split].
  - intros j el er Hel Her.
    change (next_experiment_of st2 el = Some er ∧ previous_experiment_of st2 er = Some el).
    rewrite Hnext2, Hprev2. split; [|by eapply Hprev].
    apply (Hnext j); [|done..]. apply lookup_lt_Some in Her. lia.
  - intros x Hx. change (next_experiment_of st2 x = next_experiment_of st x).
    rewrite Hnext2. by apply Hnext_frame.
  - intros x Hx. change (previous_experiment_of st2 x = previous_experiment_of st x).
    rewrite Hprev2. by apply Hprev_frame.
Qed.

(** X8: [add_experiments] raises [IndexError] on the empty list and returns on
    every other list, distinct experiments or not, with [first_experiment]
    set to the head of the list; the participant tables are not touched. *)
Theorem add_experiments_returns_unless_empty (self : SequenceOfExperiments.t)
    (exps : list nat) (st : Store) :
  match exps with
  | [] => add_experiments self exps st = Raises IndexError
  | first :: _ =>
      ∃ st',
        add_experiments self exps st
          = Returns (set_first_experiment (Some first) self, st') ∧
        participants_in_experiments st' = participants_in_experiments st ∧
        participant_rows st' = participant_rows st
  end.
Proof.
  destruct exps as [|first rest]; [reflexivity|].
  destruct (add_experiments_effect self (first :: rest) st first eq_refl)
    as (st' & Hadd & Hrows & Hprows & _).
  eauto.
Qed.

(** X9: [add_experiments] saves every experiment of the list, in the order of
    the list and once per occurrence, and then the sequence: one write per
    experiment and one for the sequence. *)
Theorem add_experiments_saves_each_row (self : SequenceOfExperiments.t)
    (exps : list nat) (st : Store) :
  exps ≠ [] →
  ∃ self' st',
    add_experiments self exps st = Returns (self', st') ∧
    saved st' = saved st ++ (ExperimentRow <$> exps)
                         ++ [SequenceRow (SequenceOfExperiments.id self)] ∧
    length (saved st') = length (saved st) + length exps + 1.
Proof.
  intros Hne. destruct exps as [|first rest] eqn:Hexps; [done|]. rewrite <- Hexps.
  destruct (add_experiments_effect self exps st first) as (st' & Hadd & _ & _ & Hsaved & _);
    [by rewrite Hexps|].
  eexists _, st'. split; [exact Hadd|]. split; [exact Hsaved|].
  rewrite Hsaved, !length_app, length_fmap. simpl. lia.
Qed.

Lemma add_experiments_saves_each_row_witness :
  ∃ self' st',
    add_experiments sequence_examples.sequence_7 [0; 1] sequence_examples.blank_store
      = Returns (self', st') ∧
    saved st' = [ExperimentRow 0; ExperimentRow 1; SequenceRow 7].
Proof.
  destruct (add_experiments_saves_each_row sequence_examples.sequence_7 [0; 1]
              sequence_examples.blank_store) as (self' & st' & Hadd & Hsaved & _).
  - done.
  - exists self', st'. split; [exact Hadd|exact Hsaved].
Defined.

(** X10: After [add_experiments] every experiment of the list refers back to
    the sequence, and the experiments outside the list are as they were. *)
Theorem add_experiments_back_references (self : SequenceOfExperiments.t)
    (exps : list nat) (st : Store) :
  exps ≠ [] →
  ∃ self' st',
    add_experiments self exps st = Returns (self', st') ∧
    SequenceOfExperiments.id self' = SequenceOfExperiments.id self ∧
    (∀ x, x ∈ exps → sequence_of st' x = Some (SequenceOfExperiments.id self)) ∧
    (∀ x, x ∉ exps → experiment_objects st' x = experiment_objects st x).
Proof.
  intros Hne. destruct exps as [|first rest] eqn:Hexps; [done|]. rewrite <- Hexps.
  destruct (add_experiments_effect self exps st first)
    as (st' & Hadd & _ & _ & _ & Hseq & Hobj); [by rewrite Hexps|].
  eexists _, st'. split; [exact Hadd|]. split; [reflexivity|]. split; assumption.
Qed.

Lemma add_experiments_back_references_witness :
  ∃ self' st',
    add_experiments sequence_examples.sequence_7 [0; 1] sequence_examples.blank_store
      = Returns (self', st') ∧
    sequence_of st' 1 = Some 7 ∧
    experiment_objects st' 2 = sequence_examples.blank_experiment.
Proof.
  destruct (add_experiments_back_references sequence_examples.sequence_7 [0; 1]
              sequence_examples.blank_store) as (self' & st' & Hadd & _ & Hseq & Hobj).
  - done.
  - exists self', st'. split; [exact Hadd|]. split.
    + apply Hseq. apply elem_of_cons. right. by left.
    + rewrite Hobj; [reflexivity|].
      intros [[=]|[[=]|[]%elem_of_nil]%elem_of_cons]%elem_of_cons.
Defined.

(** X11: On distinct experiments [add_experiments] builds a doubly linked list:
    each experiment of the list points to the one that follows it, which
    points back; the [previous_experiment] of the head and the
    [next_experiment] of the last experiment are left as they were. *)
Theorem add_experiments_doubly_links (self : SequenceOfExperiments.t)
    (exps : list nat) (st : Store) (first final : nat) :
  exps !! 0 = Some first → last exps = Some final → NoDup exps →
  ∃ self' st',
    add_experiments self exps st = Returns (self', st') ∧
    SequenceOfExperiments.first_experiment self' = Some first ∧
    (∀ j el er, exps !! j = Some el → exps !! S j = Some er →
       next_experiment_of st' el = Some er ∧ previous_experiment_of st' er = Some el) ∧
    previous_experiment_of st' first = previous_experiment_of st first ∧
    next_experiment_of st' final = next_experiment_of st final.
Proof.
  intros Hfirst Hfinal Hnodup.
  destruct (add_experiments_links self exps st first Hfirst Hnodup)
    as (st' & Hadd & Hlinks & Hnext & Hprev).
  eexists _, st'. split; [exact Hadd|]. split; [reflexivity|]. split; [exact Hlinks|].
  rewrite last_lookup in Hfinal. split.
  - apply Hprev. intros j Hj Hj'.
    assert (S j = 0) by (eapply NoDup_lookup; eauto). lia.
  - apply Hnext. intros j Hj Hj'.
    assert (j = Nat.pred (length exps)) by (eapply NoDup_lookup; eauto). lia.
Qed.

Lemma add_experiments_doubly_links_witness :
  ∃ self' st',
    add_experiments sequence_examples.sequence_7 [0; 1; 2] sequence_examples.blank_store
      = Returns (self', st') ∧
    next_experiment_of st' 1 = Some 2 ∧ previous_experiment_of st' 2 = Some 1.
Proof.
  destruct (add_experiments_doubly_links sequence_examples.sequence_7 [0; 1; 2]
              sequence_examples.blank_store 0 2)
    as (self' & st' & Hadd & _ & Hlinks & _).
  - reflexivity.
  - reflexivity.
  - by apply (bool_decide_unpack _).
  - exists self', st'. split; [exact Hadd|]. by apply (Hlinks 1).
Defined.

(** X12: The round trip through [add_experiments] and [experiments()] holds for
    distinct experiments only: for a non-empty list of experiments with
    null [next_experiment], [experiments()] returns the list for some fuel
    exactly when no experiment occurs in it twice. *)
Theorem experiments_round_trip_iff_distinct (self : SequenceOfExperiments.t)
    (exps : list nat) (st : Store) :
  exps ≠ [] →
  (∀ e, e ∈ exps → next_experiment_of st e = None) →
  ∃ self' st',
    add_experiments self exps st = Returns (self', st') ∧
    ((∃ fuel, experiments fuel st' self' = Returns exps) ↔ NoDup exps).
Proof.
  intros Hne Hnull. destruct exps as [|first rest] eqn:Hexps; [done|]. rewrite <- Hexps in *.
  assert (exps !! 0 = Some first) as Hfirst by (by rewrite Hexps).
  destruct (add_experiments_effect self exps st first Hfirst) as (st' & Hadd & _).
  eexists _, st'. split; [exact Hadd|]. split.
  - intros [fuel Hfuel]. by apply experiments_sound in Hfuel as [_ ?].
  - intros Hnodup.
    destruct (add_experiments_links self exps st first Hfirst Hnodup)
      as (st'' & Hadd' & Hlinks & Hnext & _).
    rewrite Hadd in Hadd'. injection Hadd' as <-.
    assert (chain (next_experiment_of st') (exps !! 0) exps) as Hchain.
    { apply chain_of_lookup. intros i x Hx.
      destruct (exps !! S i) as [y|] eqn:Hy.
      - by apply (Hlinks i).
      - rewrite Hnext; [apply Hnull; by eapply list_elem_of_lookup_2|].
        intros j Hj Hjx. assert (j = i) as -> by (eapply NoDup_lookup; eauto).
        apply lookup_ge_None in Hy. lia. }
    rewrite Hfirst in Hchain. exists (S (length exps)).
    exact (walk_complete _ _ _ Hchain _ [] (Nat.lt_succ_diag_r _)).
Qed.

Lemma experiments_round_trip_iff_distinct_witness :
  ∃ self' st',
    add_experiments sequence_examples.sequence_7 [0; 1] sequence_examples.blank_store
      = Returns (self', st') ∧
    ((∃ fuel, experiments fuel st' self' = Returns [0; 1]) ↔ NoDup [0; 1]).
Proof.
  apply (experiments_round_trip_iff_distinct sequence_examples.sequence_7 [0; 1]
           sequence_examples.blank_store).
  - done.
  - intros e _. reflexivity.
Defined.

End chain_construction_effects.

(** ** More on linking the participants *)

(** A loop raises when its body raises at some element and, before that,
    either raises the same exception or returns with the invariant. *)
Lemma for_each_raises {A S} (I : S → Prop) (body : A → S → outcome S) (e : exn)
    (xs : list A) (x0 : A) :
  x0 ∈ xs →
  (∀ x s, x ∈ xs → I s → body x s = Raises e ∨ ∃ s', body x s = Returns s' ∧ I s') →
  (∀ s, I s → body x0 s = Raises e) →
  ∀ s, I s → for_each xs body s = Raises e.
Proof.
  intros Hx0 Hbody Hraise. induction xs as [|x xs IH]; intros s Hs.
  - by apply elem_of_nil in Hx0.
  - simpl. destruct (Hbody x s) as [Hx|(s' & Hx & Hs')]; [by left|done|by rewrite Hx|].
    rewrite Hx. simpl. apply elem_of_cons in Hx0 as [->|Hx0].
    + rewrite Hraise in Hx by done. done.
    + apply IH; [done| |done]. intros y s0 Hy. apply Hbody. by right.
Qed.

Section connecting_effects.
Import sequence_of_experiments.

Variable es : list nat.
Variable rows0 : list ParticipantInExperiment.t.
Hypothesis es_NoDup : NoDup es.


(** One iteration of the inner loop, on a pair of participants that
    exist. *)
Lemma connect_participants_step (k i el er l r : nat) (s : Store) :
  es !! k = Some el → es !! S k = Some er →
  participant_pks rows0 el !! i = Some l →
  participant_pks rows0 er !! i = Some r →
  ParticipantInExperiment.experiment <$> participants_in_experiments s
    = ParticipantInExperiment.experiment <$> rows0 →
  ∃ s',
    connect_participants el er i s = Returns s' ∧
    ParticipantInExperiment.experiment <$> participants_in_experiments s'
      = ParticipantInExperiment.experiment <$> rows0 ∧
    experiment_objects s' = experiment_objects s ∧
    participant_rows s' = participant_rows s ∧
    saved s' = saved s ++ [ParticipantInExperimentRow l; ParticipantInExperimentRow r] ∧
    (∀ x, stored_next (participants_in_experiments s') x
          = if decide (x = l) then Some r
            else stored_next (participants_in_experiments s) x) ∧
    (∀ x, stored_previous (participants_in_experiments s') x
          = if decide (x = r) then Some l
            else stored_previous (participants_in_experiments s) x).
Proof using es_NoDup.
  intros Hel Her Hl Hr Hcol.
  assert (participant_pks (participants_in_experiments s) el !! i = Some l) as Hl'.
  { unfold participant_pks. by rewrite (rows_of_experiment_column _ rows0). }
  assert (participant_pks (participants_in_experiments s) er !! i = Some r) as Hr'.
  { unfold participant_pks. by rewrite (rows_of_experiment_column _ rows0). }
  apply participant_pks_fetch in Hl' as (rl & Hql & Hrl & _).
  apply participant_pks_fetch in Hr' as (rr & Hqr & Hrr & _).
  assert (l ≠ r) as Hne.
  { intros <-. destruct (participant_pks_inj _ _ _ _ _ _ Hl Hr) as [<- _].
    assert (k = S k) by (eapply NoDup_lookup; eauto). lia. }
  unfold connect_participants, Experiment_participants.
  rewrite (getitem_Some _ _ _ Hql), bind_Returns.
  rewrite (getitem_Some _ _ _ Hqr), bind_Returns. cbv zeta.
  eexists; split; [reflexivity|].
  destruct (save_pair_effect _ _ _ _ _ Hne Hrl Hrr) as (Hcolumn & Hnext & Hprev).
  split; [by rewrite <- Hcol|]. split; [done|]. split; [done|].
  split; [simpl; by rewrite <- app_assoc|]. split; assumption.
Qed.

(** One iteration of the inner loop, when one of the two experiments has
    no participant at the index. *)
Lemma connect_participants_short (i el er : nat) (s : Store) :
  ParticipantInExperiment.experiment <$> participants_in_experiments s
    = ParticipantInExperiment.experiment <$> rows0 →
  length (participant_pks rows0 el) ≤ i ∨ length (participant_pks rows0 er) ≤ i →
  connect_participants el er i s = Raises IndexError.
Proof.
  intros Hcol Hshort. unfold connect_participants, getitem.
  assert (∀ e, length (participant_pks rows0 e) ≤ i →
               Experiment_participants s e !! i = None) as Hnone.
  { intros e He. apply lookup_ge_None.
    rewrite <- (length_fmap fst). unfold Experiment_participants.
    by rewrite (rows_of_experiment_column _ rows0). }
  destruct (Experiment_participants s el !! i) as [pl|] eqn:Hpl; [|done].
  simpl. destruct Hshort as [Hel|Her].
  - by rewrite (Hnone el Hel) in Hpl.
  - by rewrite (Hnone er Her).
Qed.

(** The inner loop over the first [j] participants: what it writes and
    what it leaves alone. *)
Lemma connect_participants_frame (j k el er : nat) (st : Store) :
  es !! k = Some el → es !! S k = Some er →
  j ≤ length (participant_pks rows0 el) →
  j ≤ length (participant_pks rows0 er) →
  ParticipantInExperiment.experiment <$> participants_in_experiments st
    = ParticipantInExperiment.experiment <$> rows0 →
  ∃ st',
    for_each (range j) (connect_participants el er) st = Returns st' ∧
    ParticipantInExperiment.experiment <$> participants_in_experiments st'
      = ParticipantInExperiment.experiment <$> rows0 ∧
    experiment_objects st' = experiment_objects st ∧
    participant_rows st' = participant_rows st ∧
    length (saved st') = length (saved st) + 2 * j ∧
    (∀ x, (∀ i, i < j → participant_pks rows0 el !! i ≠ Some x) →
       stored_next (participants_in_experiments st') x
       = stored_next (participants_in_experiments st) x) ∧
    (∀ x, (∀ i, i < j → participant_pks rows0 er !! i ≠ Some x) →
       stored_previous (participants_in_experiments st') x
       = stored_previous (participants_in_experiments st) x).
Proof using es_NoDup.
  intros Hel Her Hjl Hjr Hcol.
  pose (I := λ (done : list nat) (s : Store),
    ParticipantInExperiment.experiment <$> participants_in_experiments s
      = ParticipantInExperiment.experiment <$> rows0 ∧
    experiment_objects s = experiment_objects st ∧
    participant_rows s = participant_rows st ∧
    length (saved s) = length (saved st) + 2 * length done ∧
    (∀ x, (∀ i, i ∈ done → participant_pks rows0 el !! i ≠ Some x) →
       stored_next (participants_in_experiments s) x
       = stored_next (participants_in_experiments st) x) ∧
    (∀ x, (∀ i, i ∈ done → participant_pks rows0 er !! i ≠ Some x) →
       stored_previous (participants_in_experiments s) x
       = stored_previous (participants_in_experiments st) x)).
  destruct (for_each_invariant I (connect_participants el er) (range j) st)
    as (st' & Hloop & Hcol' & Hobj & Hprows & Hsaved & Hnext & Hprev).
  - split; [done|]. split; [done|]. split; [done|]. split; [simpl; lia|]. split; done.
  - intros done i rest s Hsplit (Hcols & Hobjs & Hprowss & Hsaveds & Hnexts & Hprevs).
    apply range_split in Hsplit as [Hi ->].
    destruct (lookup_lt_is_Some_2 (participant_pks rows0 el) i) as [l Hl]; [lia|].
    destruct (lookup_lt_is_Some_2 (participant_pks rows0 er) i) as [r Hr]; [lia|].
    destruct (connect_participants_step k i el er l r s Hel Her Hl Hr Hcols)
      as (s' & Hstep & Hcols' & Hobjs' & Hprows' & Hsaved' & Hnext' & Hprev').
    exists s'. split; [done|]. split; [done|]. split; [congruence|].
    split; [congruence|]. split; [|split].
    + rewrite Hsaved', !length_app, Hsaveds. simpl. lia.
    + intros x Hx. rewrite Hnext'. rewrite decide_False.
      * apply Hnexts. intros i' Hi'. apply Hx. apply elem_of_app. by left.
      * intros ->. apply (Hx i); [|done]. apply elem_of_app. right.
        by apply list_elem_of_singleton.
    + intros x Hx. rewrite Hprev'. rewrite decide_False.
      * apply Hprevs. intros i' Hi'. apply Hx. apply elem_of_app. by left.
      * intros ->. apply (Hx i); [|done]. apply elem_of_app. right.
        by apply list_elem_of_singleton.
  - exists st'. repeat (split; [done|]). split; [|split].
    + rewrite Hsaved. unfold range. by rewrite length_seq.
    + intros x Hx. apply Hnext. intros i Hi. apply Hx. by apply elem_of_range.
    + intros x Hx. apply Hprev. intros i Hi. apply Hx. by apply elem_of_range.
Qed.

(** The outer loop over the first [m] adjacent pairs. *)
Lemma connect_experiments_frame (num m : nat) (st : Store) :
  m ≤ length es - 1 →
  (∀ k e, k ≤ m → es !! k = Some e → num ≤ length (participant_pks rows0 e)) →
  participants_in_experiments st = rows0 →
  ∃ st',
    for_each (range m) (connect_experiments num es) st = Returns st' ∧
    ParticipantInExperiment.experiment <$> participants_in_experiments st'
      = ParticipantInExperiment.experiment <$> rows0 ∧
    experiment_objects st' = experiment_objects st ∧
    participant_rows st' = participant_rows st ∧
    length (saved st') = length (saved st) + 2 * num * m ∧
    (∀ x, (∀ k i el, k < m → i < num → es !! k = Some el →
             participant_pks rows0 el !! i ≠ Some x) →
       stored_next (participants_in_experiments st') x = stored_next rows0 x) ∧
    (∀ x, (∀ k i er, k < m → i < num → es !! S k = Some er →
             participant_pks rows0 er !! i ≠ Some x) →
       stored_previous (participants_in_experiments st') x = stored_previous rows0 x).
Proof using es_NoDup.
  intros Hm Hlen Hrows.
  pose (I := λ (done : list nat) (s : Store),
    ParticipantInExperiment.experiment <$> participants_in_experiments s
      = ParticipantInExperiment.experiment <$> rows0 ∧
    experiment_objects s = experiment_objects st ∧
    participant_rows s = participant_rows st ∧
    length (saved s) = length (saved st) + 2 * num * length done ∧
    (∀ x, (∀ k i el, k ∈ done → i < num → es !! k = Some el →
             participant_pks rows0 el !! i ≠ Some x) →
       stored_next (participants_in_experiments s) x = stored_next rows0 x) ∧
    (∀ x, (∀ k i er, k ∈ done → i < num → es !! S k = Some er →
             participant_pks rows0 er !! i ≠ Some x) →
       stored_previous (participants_in_experiments s) x = stored_previous rows0 x)).
  destruct (for_each_invariant I (connect_experiments num es) (range m) st)
    as (st' & Hloop & Hcol' & Hobj & Hprows & Hsaved & Hnext & Hprev).
  - split; [by rewrite Hrows|]. split; [done|]. split; [done|].
    split; [simpl; lia|]. rewrite Hrows. split; done.
  - intros done k rest s Hsplit (Hcols & Hobjs & Hprowss & Hsaveds & Hnexts & Hprevs).
    apply range_split in Hsplit as [Hk ->].
    destruct (lookup_lt_is_Some_2 es k) as [el Hel]; [lia|].
    destruct (lookup_lt_is_Some_2 es (S k)) as [er Her]; [lia|].
    unfold connect_experiments. replace (k + 1) with (S k) by lia.
    rewrite (getitem_Some _ _ _ Hel), bind_Returns.
    rewrite (getitem_Some _ _ _ Her), bind_Returns.
    destruct (connect_participants_frame num k el er s Hel Her)
      as (s' & Hinner & Hcols' & Hobjs' & Hprows' & Hsaved' & Hnext' & Hprev');
      [apply (Hlen k); [lia|done]|apply (Hlen (S k)); [lia|done]|done|].
    exists s'. split; [done|]. split; [done|]. split; [congruence|].
    split; [congruence|]. split; [|split].
    + rewrite Hsaved', Hsaveds, length_app. simpl. lia.
    + intros x Hx. rewrite Hnext'.
      * apply Hnexts. intros k' i el' Hk'. apply Hx. apply elem_of_app. by left.
      * intros i Hi. apply (Hx k i el); [|done..]. apply elem_of_app. right.
        by apply list_elem_of_singleton.
    + intros x Hx. rewrite Hprev'.
      * apply Hprevs. intros k' i er' Hk'. apply Hx. apply elem_of_app. by left.
      * intros i Hi. apply (Hx k i er); [|done..]. apply elem_of_app. right.
        by apply list_elem_of_singleton.
  - exists st'. repeat (split; [done|]). split; [|split].
    + rewrite Hsaved. unfold range. by rewrite length_seq.
    + intros x Hx. apply Hnext. intros k i el Hk. apply Hx. by apply elem_of_range.
    + intros x Hx. apply Hprev. intros k i er Hk. apply Hx. by apply elem_of_range.
Qed.

(** The inner loop raises [IndexError] when one of the two experiments
    has fewer participants than the loop asks for. *)
Lemma connect_participants_raises (num k el er : nat) (st : Store) :
  es !! k = Some el → es !! S k = Some er →
  length (participant_pks rows0 el) < num ∨ length (participant_pks rows0 er) < num →
  ParticipantInExperiment.experiment <$> participants_in_experiments st
    = ParticipantInExperiment.experiment <$> rows0 →
  for_each (range num) (connect_participants el er) st = Raises IndexError.
Proof using es_NoDup.
  intros Hel Her Hshort Hcol.
  apply (for_each_raises
           (λ s, ParticipantInExperiment.experiment <$> participants_in_experiments s
                 = ParticipantInExperiment.experiment <$> rows0)
           _ _ _ (length (participant_pks rows0 el) `min` length (participant_pks rows0 er)));
    [apply elem_of_range; lia| | |done].
  - intros i s _ Hs.
    destruct (decide (i < length (participant_pks rows0 el))) as [Hil|Hil];
      [|left; apply connect_participants_short; [done|lia]].
    destruct (decide (i < length (participant_pks rows0 er))) as [Hir|Hir];
      [|left; apply connect_participants_short; [done|lia]].
    right.
    destruct (lookup_lt_is_Some_2 (participant_pks rows0 el) i) as [l Hl]; [lia|].
    destruct (lookup_lt_is_Some_2 (participant_pks rows0 er) i) as [r Hr]; [lia|].
    destruct (connect_participants_step k i el er l r s Hel Her Hl Hr Hs)
      as (s' & Hstep & Hcols' & _). eauto.
  - intros s Hs. apply connect_participants_short; [done|lia].
Qed.

End connecting_effects.

Section connect_outcomes.
Import sequence_of_experiments.

Lemma connect_unfold (fuel : nat) (self : SequenceOfExperiments.t) (st : Store)
    (es : list nat) :
  experiments fuel st self = Returns es →
  connect_participants_between_experiments fuel self st
  = for_each (range (length es - 1))
             (connect_experiments (length (participants st self)) es) st.
Proof.
  intros Hes. unfold connect_participants_between_experiments.
  by rewrite Hes, bind_Returns.
Qed.

Lemma Experiment_participants_length (st : Store) (e : nat) :
  length (Experiment_participants st e)
  = length (participant_pks (participants_in_experiments st) e).
Proof. unfold participant_pks. by rewrite length_fmap. Qed.


(** The participants that [linked] speaks of, as [participants()] lists
    them in the table [rows]. *)
Lemma linked_explicit (es : list nat) (rows0 rows : list ParticipantInExperiment.t)
    (st' : Store) (k i el er : nat) :
  participants_in_experiments st' = rows →
  ParticipantInExperiment.experiment <$> rows
    = ParticipantInExperiment.experiment <$> rows0 →
  linked es rows0 rows k i →
  es !! k = Some el → es !! S k = Some er →
  ∃ pl pr,
    Experiment_participants st' el !! i = Some pl ∧
    Experiment_participants st' er !! i = Some pr ∧
    ParticipantInExperiment.me_in_next_experiment pl.2 = Some pr.1 ∧
    ParticipantInExperiment.me_in_previous_experiment pr.2 = Some pl.1.
Proof.
  intros <- Hcol (el' & er' & l & r & Hel' & Her' & Hl & Hr & Hnext & Hprev) Hel Her.
  assert (el' = el) as -> by congruence. assert (er' = er) as -> by congruence.
  assert (participant_pks (participants_in_experiments st') el !! i = Some l) as Hl'.
  { unfold participant_pks. by rewrite (rows_of_experiment_column _ rows0). }
  assert (participant_pks (participants_in_experiments st') er !! i = Some r) as Hr'.
  { unfold participant_pks. by rewrite (rows_of_experiment_column _ rows0). }
  apply participant_pks_fetch in Hl' as (rl & Hql & Hrl & _).
  apply participant_pks_fetch in Hr' as (rr & Hqr & Hrr & _).
  exists (l, rl), (r, rr). split; [exact Hql|]. split; [exact Hqr|]. simpl.
  unfold stored_next in Hnext. unfold stored_previous in Hprev.
  rewrite Hrl in Hnext. rewrite Hrr in Hprev. done.
Qed.

(** Everything the loops of
    [connect_participants_between_experiments] do, when every experiment
    of the chain has at least as many participants as the sequence. *)
Lemma connect_summary (fuel : nat) (self : SequenceOfExperiments.t) (st : Store)
    (es : list nat) :
  experiments fuel st self = Returns es →
  (∀ e, e ∈ es →
     length (participants st self) ≤ length (Experiment_participants st e)) →
  ∃ st',
    connect_participants_between_experiments fuel self st = Returns st' ∧
    ParticipantInExperiment.experiment <$> participants_in_experiments st'
      = ParticipantInExperiment.experiment <$> participants_in_experiments st ∧
    experiment_objects st' = experiment_objects st ∧
    participant_rows st' = participant_rows st ∧
    length (saved st')
      = length (saved st) + 2 * length (participants st self) * (length es - 1) ∧
    (∀ k i, k < length es - 1 → i < length (participants st self) →
       linked es (participants_in_experiments st) (participants_in_experiments st') k i) ∧
    (∀ x, (∀ k i el, k < length es - 1 → i < length (participants st self) →
             es !! k = Some el →
             participant_pks (participants_in_experiments st) el !! i ≠ Some x) →
       stored_next (participants_in_experiments st') x
       = stored_next (participants_in_experiments st) x) ∧
    (∀ x, (∀ k i er, k < length es - 1 → i < length (participants st self) →
             es !! S k = Some er →
             participant_pks (participants_in_experiments st) er !! i ≠ Some x) →
       stored_previous (participants_in_experiments st') x
       = stored_previous (participants_in_experiments st) x).
Proof.
  intros Hes Hlen.
  destruct (experiments_sound _ _ _ _ Hes) as [_ Hnodup].
  assert (∀ e, e ∈ es → length (participants st self)
                         ≤ length (participant_pks (participants_in_experiments st) e))
    as Hlen'.
  { intros e He. rewrite <- Experiment_participants_length. by apply Hlen. }
  destruct (connect_experiments_loop es (participants_in_experiments st) Hnodup
              (length (participants st self)) st Hlen' eq_refl)
    as (st' & Hloop & _ & _ & Hlinked).
  destruct (connect_experiments_frame es (participants_in_experiments st) Hnodup
              (length (participants st self)) (length es - 1) st)
    as (st'' & Hloop' & Hcol & Hobj & Hprows & Hsaved & Hnext & Hprev); [done| |done|].
  { intros k e _ Hk. apply Hlen'. by eapply list_elem_of_lookup_2. }
  rewrite Hloop in Hloop'. injection Hloop' as <-.
  exists st'. rewrite (connect_unfold _ _ _ _ Hes). done.
Qed.

(** X13: [connect_participants_between_experiments] writes two rows for every
    participant index and every adjacent pair of experiments, changes no
    experiment and no [Participant] row, and moves no participant to
    another experiment. *)
Theorem connect_participants_writes (fuel : nat) (self : SequenceOfExperiments.t)
    (st : Store) (es : list nat) :
  experiments fuel st self = Returns es →
  (∀ e, e ∈ es →
     length (Experiment_participants st e) = length (participants st self)) →
  ∃ st',
    connect_participants_between_experiments fuel self st = Returns st' ∧
    length (saved st')
      = length (saved st) + 2 * length (participants st self) * (length es - 1) ∧
    experiment_objects st' = experiment_objects st ∧
    participant_rows st' = participant_rows st ∧
    ParticipantInExperiment.experiment <$> participants_in_experiments st'
      = ParticipantInExperiment.experiment <$> participants_in_experiments st.
Proof.
  intros Hes Hlen.
  destruct (connect_summary fuel self st es Hes)
    as (st' & Hconnect & Hcol & Hobj & Hprows & Hsaved & _).
  { intros e He. by rewrite Hlen. }
  exists st'. done.
Qed.

Lemma connect_participants_writes_witness :
  ∃ st',
    connect_participants_between_experiments 3 sequence_examples.chained_sequence
      sequence_examples.chained_store = Returns st' ∧
    length (saved st') = 4.
Proof.
  destruct (connect_participants_writes 3 sequence_examples.chained_sequence
              sequence_examples.chained_store [0; 1]) as (st' & Hconnect & Hsaved & _).
  - reflexivity.
  - intros e [->|[->|[]%elem_of_nil]%elem_of_cons]%elem_of_cons; reflexivity.
  - exists st'. split; [exact Hconnect|exact Hsaved].
Defined.



End connect_outcomes.

Section connect_errors.
Import sequence_of_experiments.

(** X15: [connect_participants_between_experiments] raises [IndexError] when
    the chain has at least two experiments and one of them has fewer
    participants than the sequence: the lengths are not checked
    beforehand, and rows linked before the failing index stay written. *)
Theorem connect_participants_raises_IndexError (fuel : nat)
    (self : SequenceOfExperiments.t) (st : Store) (es : list nat) (e : nat) :
  experiments fuel st self = Returns es →
  2 ≤ length es →
  e ∈ es →
  length (Experiment_participants st e) < length (participants st self) →
  connect_participants_between_experiments fuel self st = Raises IndexError.
Proof.
  intros Hes Hlong He Hshort.
  destruct (experiments_sound _ _ _ _ Hes) as [_ Hnodup].
  rewrite (connect_unfold _ _ _ _ Hes).
  rewrite Experiment_participants_length in Hshort.
  apply list_elem_of_lookup_1 in He as [p Hp].
  assert (p < length es) as Hplt by (by eapply lookup_lt_Some).
  pose (k0 := if decide (p < length es - 1) then p else p - 1).
  pose (I := λ s : Store,
    ParticipantInExperiment.experiment <$> participants_in_experiments s
    = ParticipantInExperiment.experiment <$> participants_in_experiments st).
  assert (∀ k s, k ∈ range (length es - 1) → I s →
            ∃ el er, es !! k = Some el ∧ es !! S k = Some er ∧
              connect_experiments (length (participants st self)) es k s
              = for_each (range (length (participants st self)))
                         (connect_participants el er) s) as Hbody.
  { intros k s Hk%elem_of_range _.
    destruct (lookup_lt_is_Some_2 es k) as [el Hel]; [lia|].
    destruct (lookup_lt_is_Some_2 es (S k)) as [er Her]; [lia|].
    exists el, er. split; [done|]. split; [done|].
    unfold connect_experiments. replace (k + 1) with (S k) by lia.
    by rewrite (getitem_Some _ _ _ Hel), bind_Returns,
               (getitem_Some _ _ _ Her), bind_Returns. }
  apply (for_each_raises I _ _ _ k0).
  - apply elem_of_range. unfold k0. case_decide; lia.
  - intros k s Hk Hs. destruct (Hbody k s Hk Hs) as (el & er & Hel & Her & ->).
    destruct (decide (length (participants st self)
                      ≤ length (participant_pks (participants_in_experiments st) el)))
      as [Hl|Hl];
      [|left; eapply connect_participants_raises; eauto; lia].
    destruct (decide (length (participants st self)
                      ≤ length (participant_pks (participants_in_experiments st) er)))
      as [Hr|Hr];
      [|left; eapply connect_participants_raises; eauto; lia].
    right.
    destruct (connect_participants_frame es (participants_in_experiments st) Hnodup
                (length (participants st self)) k el er s Hel Her Hl Hr Hs)
      as (s' & Hloop & Hcol & _).
    eauto.
  - intros s Hs.
    assert (k0 ∈ range (length es - 1)) as Hk0
      by (apply elem_of_range; unfold k0; case_decide; lia).
    destruct (Hbody k0 s Hk0 Hs) as (el & er & Hel & Her & ->).
    eapply connect_participants_raises; eauto.
    unfold k0 in Hel, Her. case_decide.
    + left. assert (el = e) as -> by congruence. done.
    + right. replace (S (p - 1)) with p in Her by lia.
      assert (er = e) as -> by congruence. done.
  - done.
Qed.

Lemma connect_participants_raises_IndexError_witness :
  connect_participants_between_experiments 3 sequence_examples.chained_sequence
    (set_participants_in_experiments
       [sequence_examples.blank_row 0; sequence_examples.blank_row 0;
        sequence_examples.blank_row 1]
       sequence_examples.chained_store)
  = Raises IndexError.
Proof.
  apply (connect_participants_raises_IndexError 3 sequence_examples.chained_sequence
           _ [0; 1] 1).
  - reflexivity.
  - simpl. lia.
  - apply elem_of_cons. right. by left.
  - vm_compute. lia.
Defined.

(** X16: With fewer than two experiments in the chain there is no pair to
    link: the call returns the store as it is, whatever the participant
    lists are. *)
Theorem connect_participants_single_experiment (fuel : nat)
    (self : SequenceOfExperiments.t) (st : Store) (es : list nat) :
  experiments fuel st self = Returns es →
  length es ≤ 1 →
  connect_participants_between_experiments fuel self st = Returns st.
Proof.
  intros Hes Hshort. rewrite (connect_unfold _ _ _ _ Hes).
  by replace (length es - 1) with 0 by lia.
Qed.

Lemma connect_participants_single_experiment_witness :
  connect_participants_between_experiments 3 sequence_examples.chained_sequence
    sequence_examples.blank_store
  = Returns sequence_examples.blank_store.
Proof.
  apply (connect_participants_single_experiment 3 sequence_examples.chained_sequence
           sequence_examples.blank_store [0]).
  - reflexivity.
  - simpl. lia.
Defined.

End connect_errors.

Section connect_compositions.
Import sequence_of_experiments.



(** X18: [add_experiments] followed by
    [connect_participants_between_experiments], as the docstring asks: for
    distinct experiments with null [next_experiment] that each have as
    many participants as the sequence, both calls return, and participant
    [i] of every experiment of the list is linked with participant [i] of
    the experiment that follows it in the list. *)
Theorem add_experiments_then_connect (fuel : nat) (self : SequenceOfExperiments.t)
    (exps : list nat) (st : Store) :
  exps ≠ [] → NoDup exps →
  (∀ e, e ∈ exps → next_experiment_of st e = None) →
  (∀ e, e ∈ exps →
     length (Experiment_participants st e) = length (participants st self)) →
  length exps < fuel →
  ∃ self' st1 st2,
    add_experiments self exps st = Returns (self', st1) ∧
    connect_participants_between_experiments fuel self' st1 = Returns st2 ∧
    ∀ k i el er,
      exps !! k = Some el → exps !! S k = Some er → i < length (participants st self) →
      ∃ pl pr,
        Experiment_participants st2 el !! i = Some pl ∧
        Experiment_participants st2 er !! i = Some pr ∧
        ParticipantInExperiment.me_in_next_experiment pl.2 = Some pr.1 ∧
        ParticipantInExperiment.me_in_previous_experiment pr.2 = Some pl.1.
Proof.
  intros Hne Hnodup Hnull Hlen Hfuel.
  destruct exps as [|first rest] eqn:Hexps; [done|]. rewrite <- Hexps in *.
  assert (exps !! 0 = Some first) as Hfirst by (by rewrite Hexps).
  destruct (add_experiments_effect self exps st first Hfirst)
    as (st1 & Hadd & Hrows & Hprows & _).
  destruct (add_experiments_links self exps st first Hfirst Hnodup)
    as (st1' & Hadd' & Hlinks & Hnext & _).
  rewrite Hadd in Hadd'. injection Hadd' as <-.
  assert (experiments fuel st1 (set_first_experiment (Some first) self) = Returns exps)
    as Hes.
  { assert (chain (next_experiment_of st1) (exps !! 0) exps) as Hchain.
    { apply chain_of_lookup. intros i x Hx.
      destruct (exps !! S i) as [y|] eqn:Hy.
      - by apply (Hlinks i).
      - rewrite Hnext; [apply Hnull; by eapply list_elem_of_lookup_2|].
        intros j Hj Hjx. assert (j = i) as -> by (eapply NoDup_lookup; eauto).
        apply lookup_ge_None in Hy. lia. }
    rewrite Hfirst in Hchain.
    exact (walk_complete _ _ _ Hchain _ [] Hfuel). }
  assert (participants st1 (set_first_experiment (Some first) self) = participants st self)
    as Hparticipants by (unfold participants; simpl; by rewrite Hprows).
  destruct (connect_summary fuel (set_first_experiment (Some first) self) st1 exps Hes)
    as (st2 & Hconnect & Hcol & _ & _ & _ & Hlinked & _).
  { intros e He. rewrite Hparticipants, <- (Hlen e He).
    unfold Experiment_participants. by rewrite Hrows. }
  eexists _, st1, st2. split; [exact Hadd|]. split; [exact Hconnect|].
  intros k i el er Hel Her Hi.
  eapply (linked_explicit exps (participants_in_experiments st1)); eauto.
  apply Hlinked; [apply lookup_lt_Some in Her; lia|by rewrite Hparticipants].
Qed.

Lemma add_experiments_then_connect_witness :
  ∃ self' st1 st2,
    add_experiments sequence_examples.sequence_7 [0; 1] sequence_examples.blank_store
      = Returns (self', st1) ∧
    connect_participants_between_experiments 3 self' st1 = Returns st2 ∧
    ∃ pl pr,
      Experiment_participants st2 0 !! 0 = Some pl ∧
      Experiment_participants st2 1 !! 0 = Some pr ∧
      ParticipantInExperiment.me_in_next_experiment pl.2 = Some pr.1 ∧
      ParticipantInExperiment.me_in_previous_experiment pr.2 = Some pl.1.
Proof.
  destruct (add_experiments_then_connect 3 sequence_examples.sequence_7 [0; 1]
              sequence_examples.blank_store)
    as (self' & st1 & st2 & Hadd & Hconnect & Hlinked).
  - done.
  - by apply (bool_decide_unpack _).
  - intros e _. reflexivity.
  - intros e [->|[->|[]%elem_of_nil]%elem_of_cons]%elem_of_cons; reflexivity.
  - simpl. lia.
  - exists self', st1, st2. split; [exact Hadd|]. split; [exact Hconnect|].
    apply (Hlinked 0 0 0 1); [reflexivity|reflexivity|]. vm_compute. lia.
Defined.

End connect_compositions.

(** ** More on names and URLs *)

Section url_facts.
Import sequence_of_experiments.

(** X19: The URL of a sequence identifies the sequence: two sequences have the
    same [start_url()] exactly when they have the same primary key. *)
Theorem start_url_identifies_sequence (c : constants) (s1 s2 : SequenceOfExperiments.t) :
  start_url c s1 = start_url c s2 ↔ SequenceOfExperiments.id s1 = SequenceOfExperiments.id s2.
Proof.
  split; [|apply start_url_of_id].
  unfold start_url. intros Heq.
  repeat apply (inj (String.app _)) in Heq.
  by apply (inj pretty) in Heq.
Qed.

(** X20: [__unicode__] raises [AttributeError] for every sequence: it calls
    [self.unicode], and the class has neither a field nor a method of that
    name. *)
Theorem unicode_raises_AttributeError (call : value → outcome value)
    (self : SequenceOfExperiments.t) :
  SequenceOfExperiments_getattr self "unicode" = Raises AttributeError ∧
  SequenceOfExperiments_unicode call self = Raises AttributeError.
Proof. split; reflexivity. Qed.

End url_facts.
